(** * Affine registration notebook (affine_reg_oasis.ipynb): a shallow embedding

    The notebook trains a small 3-D CNN ([AffineNet]) that regresses a 3x4
    affine matrix aligning a "moving" brain volume onto a "fixed" one, using
    synthetic perturbations whose matrices are recorded by the augmentation
    pipeline.

    Tensor entries are modelled as real numbers ([R]): the development is about
    the algebra, the shapes and the data flow of the notebook, not about
    rounding.  Framework primitives whose numeric kernels are not part of the
    notebook (convolutions, pooling, normalisation, grid sampling) are taken
    as a [backend] of arbitrary functions; their documented shape rules are
    written out. *)

From Stdlib Require Import Reals Lra Lia ZArith List String.
From stdpp Require Import gmap strings.
Import ListNotations.

Open Scope R_scope.

(** ** Python exceptions and the error monad *)

Inductive error : Type :=
| AssertionError
| IndexError
| KeyError
| RuntimeError
| LinAlgError
| Exception (msg : string).

Definition M (A : Type) : Type := (error + A)%type.

Definition ret {A} (a : A) : M A := inr a.
Definition raise {A} (e : error) : M A := inl e.
Definition bind {A B} (m : M A) (k : A -> M B) : M B :=
  match m with
  | inl e => inl e
  | inr a => k a
  end.

Notation "'do' x <- m ; k" := (bind m (fun x => k))
  (at level 10, x name, m at level 100, k at level 200).

Fixpoint mapM {A B} (f : A -> M B) (l : list A) : M (list B) :=
  match l with
  | [] => ret []
  | a :: t => do b <- f a; do bs <- mapM f t; ret (b :: bs)
  end.

(** ** Notebook globals (cells 6 and 7) *)

Definition S : Z := 64.
Definition resize : list Z := [S; S; S].

(** Control the overall scale of affine transform *)
Definition a : R := 3 / 10.

(** ** Matrices as lists of rows *)

Definition matrix : Type := list (list R).

Definition rsum (l : list R) : R := fold_right Rplus 0 l.

Definition dot (u v : list R) : R :=
  rsum (map (fun p => fst p * snd p) (combine u v)).

Definition nrows (A : matrix) : nat := length A.
Definition ncols (A : matrix) : nat := length (hd [] A).

Definition column (j : nat) (A : matrix) : list R :=
  map (fun row => nth j row 0) A.

(** The product of well-shaped operands. *)
Definition mmul (A B : matrix) : matrix :=
  map (fun row => map (fun j => dot row (column j B)) (seq 0 (ncols B))) A.

Definition eye (n : nat) : matrix :=
  map (fun i => map (fun j => if Nat.eqb i j then 1 else 0) (seq 0 n)) (seq 0 n).

Definition rectangular (A : matrix) : bool :=
  forallb (fun row => Nat.eqb (length row) (ncols A)) A.

Definition is_square (A : matrix) : bool :=
  rectangular A && Nat.eqb (ncols A) (nrows A).

(** [torch.matmul] on two 2-D tensors: the inner sizes must agree. *)
Definition matmul (A B : matrix) : M matrix :=
  if rectangular A && rectangular B && Nat.eqb (ncols A) (nrows B)
  then ret (mmul A B)
  else raise RuntimeError.

Definition is_mat (r c : nat) (A : matrix) : Prop :=
  length A = r /\ Forall (fun row => length row = c) A.

(** *** Determinant, adjugate and inverse *)

Fixpoint remove_nth {A} (j : nat) (l : list A) : list A :=
  match l, j with
  | [], _ => []
  | _ :: t, O => t
  | h :: t, Datatypes.S j' => h :: remove_nth j' t
  end.

(** Laplace expansion along the first row; [n] is the size of the matrix. *)
Fixpoint det_rec (n : nat) (A : matrix) : R :=
  match n with
  | O => 1
  | Datatypes.S n' =>
      match A with
      | [] => 1
      | row :: rest =>
          rsum (map (fun j => (-1) ^ j * nth j row 0
                              * det_rec n' (map (remove_nth j) rest))
                    (seq 0 n))
      end
  end.

Definition det (A : matrix) : R := det_rec (length A) A.

Definition minor (i j : nat) (A : matrix) : matrix :=
  map (remove_nth j) (remove_nth i A).

Definition cofactor (i j : nat) (A : matrix) : R :=
  (-1) ^ (i + j) * det (minor i j A).

Definition adjugate (A : matrix) : matrix :=
  map (fun i => map (fun j => cofactor j i A) (seq 0 (length A)))
      (seq 0 (length A)).

Definition inverse (A : matrix) : matrix :=
  map (map (fun x => x / det A)) (adjugate A).

Definition invertible (A : matrix) : Prop :=
  exists A', is_mat (length A) (length A) A'
             /\ mmul A A' = eye (length A) /\ mmul A' A = eye (length A).

(** [torch.linalg.inv]: the input must be square; a singular input raises. *)
Definition linalg_inv (A : matrix) : M matrix :=
  if is_square A then
    if Req_dec_T (det A) 0 then raise LinAlgError else ret (inverse A)
  else raise RuntimeError.

(** [torch.linalg.solve A B]: the solution [X] of [A X = B] for a square [A]
    with a unique solution; a singular [A] raises. *)
Definition linalg_solve (A B : matrix) : M matrix :=
  if is_square A && rectangular B && Nat.eqb (nrows B) (nrows A) then
    if Req_dec_T (det A) 0 then raise LinAlgError
    else ret (mmul (inverse A) B)
  else raise RuntimeError.

(** ** Tensors: a shape and row-major data *)

Record tensor : Type := mkTensor { shape : list Z; data : list R }.

Definition numel (sh : list Z) : Z := fold_right Z.mul 1%Z sh.

(** [n] consecutive entries starting at offset [start]. *)
Definition slice {A} (start n : nat) (l : list A) : list A :=
  firstn n (skipn start l).

(** [t.view(dims)]: the same data under another shape; at most one entry of
    [dims] is -1 and is inferred from the number of elements. *)
Definition view (t : tensor) (dims : list Z) : M tensor :=
  let known := numel (List.filter (fun d => negb (d =? -1)%Z) dims) in
  let total := numel (shape t) in
  match count_occ Z.eq_dec dims (-1)%Z with
  | O => if (numel dims =? total)%Z then ret (mkTensor dims (data t))
         else raise RuntimeError
  | Datatypes.S O =>
      if (0 <? known)%Z && (total mod known =? 0)%Z
      then ret (mkTensor
                  (map (fun d => if (d =? -1)%Z then (total / known)%Z else d) dims)
                  (data t))
      else raise RuntimeError
  | _ => raise RuntimeError
  end.

(** [x[:, idxs]] on a tensor with at least two dimensions: for every entry of
    the first dimension, the listed entries of the second one. *)
Definition index_channels (x : tensor) (idxs : list nat) : M tensor :=
  match shape x with
  | B :: C :: rest =>
      if forallb (fun i => (Z.of_nat i <? C)%Z) idxs then
        let inner := Z.to_nat (numel rest) in
        ret (mkTensor
               (B :: Z.of_nat (length idxs) :: rest)
               (concat (map (fun b =>
                         concat (map (fun i =>
                           slice ((b * Z.to_nat C + i) * inner) inner (data x))
                           idxs))
                         (seq 0 (Z.to_nat B)))))
      else raise IndexError
  | _ => raise IndexError
  end.

(** [torch.cat([t1, t2], dim=0)]. *)
Definition cat0 (t1 t2 : tensor) : M tensor :=
  match shape t1, shape t2 with
  | c1 :: r1, c2 :: r2 =>
      if decide (r1 = r2)
      then ret (mkTensor ((c1 + c2)%Z :: r1) (data t1 ++ data t2))
      else raise RuntimeError
  | _, _ => raise RuntimeError
  end.

(** [torch.stack(ts)] along a new first dimension (also what collation of a
    batch does to each tensor field, and [t.unsqueeze(0)] for one tensor). *)
Definition stack (ts : list tensor) : M tensor :=
  match ts with
  | [] => raise RuntimeError
  | t0 :: _ =>
      if forallb (fun t => bool_decide (shape t = shape t0)) ts
      then ret (mkTensor (Z.of_nat (length ts) :: shape t0)
                         (concat (map data ts)))
      else raise RuntimeError
  end.

(** A 2-D tensor from a matrix. *)
Definition tensor_of_matrix (A : matrix) : tensor :=
  mkTensor [Z.of_nat (nrows A); Z.of_nat (ncols A)] (concat A).

(** [t[:, :k]] on a tensor with at least two dimensions. *)
Definition take_rows (k : nat) (t : tensor) : M tensor :=
  match shape t with
  | B :: r :: rest =>
      let inner := Z.to_nat (numel rest) in
      let per := (Z.to_nat r * inner)%nat in
      let k' := Nat.min k (Z.to_nat r) in
      ret (mkTensor (B :: Z.of_nat k' :: rest)
             (concat (map (fun b => slice (b * per) (k' * inner) (data t))
                          (seq 0 (Z.to_nat B)))))
  | _ => raise IndexError
  end.

(** ** Cell 7: the augmentation pipeline *)

Record RandAffine_params : Type := {
  prob : R;
  mode : string;
  padding_mode : string;
  spatial_size : list Z;
  cache_grid : bool;
  rotate_range : list R;
  shear_range : list R;
  translate_range : list R;
  scale_range : list R
}.

Definition keys : list string := ["fixed"; "moving"]%string.

Definition rand_affine_params : RandAffine_params := {|
  prob := 1;
  mode := "bilinear";
  padding_mode := "zeros";
  spatial_size := resize;
  cache_grid := true;
  rotate_range := repeat (a * PI / 2) 3;
  shear_range := repeat 0 6;
  translate_range := repeat (a * IZR S / 16) 3;
  scale_range := repeat (a * (2 / 10)) 3
|}.

Inductive transform_step : Type :=
| LoadImageD (reader : string) (ks : list string)
| TransposeD (ks : list string) (indices : list Z)
| AddChannelD (ks : list string)
| ToTensorD (ks : list string)
| ResizeD (size : list Z) (ks : list string)
| ToDeviceD (ks : list string)
| RandAffineD (ks : list string) (params : RandAffine_params)
| ConcatItemsD (ks : list string) (name : string) (dim : Z).

Definition transform : list transform_step := [
  LoadImageD "itkreader" keys;
  TransposeD keys [2; 1; 0]%Z;
  AddChannelD keys;
  ToTensorD keys;
  ResizeD resize keys;
  ToDeviceD keys;
  RandAffineD ["fixed"%string] rand_affine_params;
  RandAffineD ["moving"%string] rand_affine_params;
  ConcatItemsD keys "fm" 0
].

(** *** The random affine of the augmentation framework

    What the framework documents for its random affine transform: every
    parameter whose range entry is a number [r] is drawn uniformly from
    [[-r, r]] (scales are drawn around 1), and the matrix applied to the image
    is the product rotate * shear * translate * scale of the four homogeneous
    matrices built from the drawn parameters. *)

Record affine_draw : Type := {
  rotate_params : list R;
  shear_params : list R;
  translate_params : list R;
  scale_params : list R
}.

Definition drawn_from (rng : list R) (offset : R) (vals : list R) : Prop :=
  Forall2 (fun r v => - r <= v - offset <= r) rng vals.

Definition valid_draw (p : RandAffine_params) (dr : affine_draw) : Prop :=
  drawn_from (rotate_range p) 0 (rotate_params dr)
  /\ drawn_from (shear_range p) 0 (shear_params dr)
  /\ drawn_from (translate_range p) 0 (translate_params dr)
  /\ drawn_from (scale_range p) 1 (scale_params dr).

Definition create_rotate (rad : list R) : matrix :=
  let rx := nth 0 rad 0 in
  let ry := nth 1 rad 0 in
  let rz := nth 2 rad 0 in
  mmul (mmul [[1; 0; 0; 0];
              [0; cos rx; - sin rx; 0];
              [0; sin rx; cos rx; 0];
              [0; 0; 0; 1]]
             [[cos ry; 0; sin ry; 0];
              [0; 1; 0; 0];
              [- sin ry; 0; cos ry; 0];
              [0; 0; 0; 1]])
       [[cos rz; - sin rz; 0; 0];
        [sin rz; cos rz; 0; 0];
        [0; 0; 1; 0];
        [0; 0; 0; 1]].

Definition create_shear (c : list R) : matrix :=
  [[1; nth 0 c 0; nth 1 c 0; 0];
   [nth 2 c 0; 1; nth 3 c 0; 0];
   [nth 4 c 0; nth 5 c 0; 1; 0];
   [0; 0; 0; 1]].

Definition create_translate (t : list R) : matrix :=
  [[1; 0; 0; nth 0 t 0];
   [0; 1; 0; nth 1 t 0];
   [0; 0; 1; nth 2 t 0];
   [0; 0; 0; 1]].

Definition create_scale (s : list R) : matrix :=
  [[nth 0 s 1; 0; 0; 0];
   [0; nth 1 s 1; 0; 0];
   [0; 0; nth 2 s 1; 0];
   [0; 0; 0; 1]].

Definition affine_of_draw (dr : affine_draw) : matrix :=
  mmul (mmul (mmul (create_rotate (rotate_params dr))
                   (create_shear (shear_params dr)))
             (create_translate (translate_params dr)))
       (create_scale (scale_params dr)).

(** *** Samples

    What the pipeline leaves in a sample dictionary: the two perturbed
    volumes, their concatenation, and for each volume the list of applied
    transforms, each with its class name and recorded extra information. *)

Record applied_transform : Type := {
  class : string;
  extra_info : gmap string matrix
}.

Record sample : Type := {
  fixed : tensor;
  moving : tensor;
  fm : tensor;
  fixed_transforms : list applied_transform;
  moving_transforms : list applied_transform
}.

(** [ConcatItemsD(keys=['fixed','moving'], name='fm', dim=0)]. *)
Definition ConcatItemsD_apply (f m : tensor) : M tensor := cat0 f m.

(** The record left by a [RandAffineD] step that drew [dr]. *)
Definition RandAffined_record (dr : affine_draw) : applied_transform :=
  {| class := "RandAffined"; extra_info := {[ "affine"%string := affine_of_draw dr ]} |}.

(** ** Cell 11: AffineNet *)

Inductive layer : Type :=
| Conv3d (c_in c_out kernel_size : Z)
| MaxPool3d (kernel_size stride : Z)
| BatchNorm3d (num_features : Z)
| Dropout (p : R)
| PReLU.

(** Output shape of a layer on a batched 5-D input (N, C, D, H, W); stride 1
    and no padding for the convolution, floor mode for the pooling. *)
Definition layer_shape (l : layer) (sh : list Z) : M (list Z) :=
  match l with
  | Conv3d c_in c_out k =>
      match sh with
      | [B; C; D; H; W] =>
          if (C =? c_in)%Z && (k <=? D)%Z && (k <=? H)%Z && (k <=? W)%Z
          then ret [B; c_out; D - k + 1; H - k + 1; W - k + 1]%Z
          else raise RuntimeError
      | _ => raise RuntimeError
      end
  | MaxPool3d k s =>
      match sh with
      | [B; C; D; H; W] =>
          if (k <=? D)%Z && (k <=? H)%Z && (k <=? W)%Z
          then ret [B; C; (D - k) / s + 1; (H - k) / s + 1; (W - k) / s + 1]%Z
          else raise RuntimeError
      | _ => raise RuntimeError
      end
  | BatchNorm3d c =>
      match sh with
      | [B; C; D; H; W] =>
          if (C =? c)%Z then ret sh else raise RuntimeError
      | _ => raise RuntimeError
      end
  | Dropout _ => ret sh
  | PReLU => ret sh
  end.

(** The numeric kernels of the framework.  [layer_data i l x] is what the
    [i]-th layer of the localization network computes on [x] (its learned
    weights, the batch statistics and the dropout mask of the call included);
    the other two are the values of the sampling grid and of the resampled
    volume. *)
Record backend : Type := {
  layer_data : nat -> layer -> tensor -> list R;
  affine_grid_data : tensor -> list Z -> list R;
  grid_sample_data : tensor -> tensor -> list R
}.

(** [torch.nn.Sequential]: the layers in order, starting at position [i]. *)
Fixpoint Sequential_forward (bk : backend) (i : nat) (ls : list layer)
    (x : tensor) : M tensor :=
  match ls with
  | [] => ret x
  | l :: rest =>
      do sh <- layer_shape l (shape x);
      Sequential_forward bk (Datatypes.S i) rest (mkTensor sh (layer_data bk i l x))
  end.

(** [torch.nn.Linear]: [weight] has [out_features] rows of [in_features]
    entries. *)
Record Linear : Type := {
  in_features : Z;
  out_features : Z;
  weight : matrix;
  bias : list R
}.

(** A freshly constructed Linear layer; [w0] and [b0] stand for its random
    initial values. *)
Definition Linear_new (n_in n_out : Z) (w0 : nat -> nat -> R) (b0 : nat -> R)
    : Linear := {|
  in_features := n_in;
  out_features := n_out;
  weight := map (fun i => map (w0 i) (seq 0 (Z.to_nat n_in)))
                (seq 0 (Z.to_nat n_out));
  bias := map b0 (seq 0 (Z.to_nat n_out))
|}.

(** [y = x W^T + b] on every row of the last dimension. *)
Definition Linear_row (lin : Linear) (row : list R) : list R :=
  map (fun wb => dot row (fst wb) + snd wb) (combine (weight lin) (bias lin)).

Definition Linear_forward (lin : Linear) (x : tensor) : M tensor :=
  match rev (shape x) with
  | n :: lead =>
      if (n =? in_features lin)%Z then
        let rows := Z.to_nat (numel lead) in
        let w := Z.to_nat n in
        ret (mkTensor (rev (out_features lin :: lead))
               (concat (map (fun r => Linear_row lin (slice (r * w) w (data x)))
                            (seq 0 rows))))
      else raise RuntimeError
  | [] => raise RuntimeError
  end.

Fixpoint Linears_forward (ls : list Linear) (x : tensor) : M tensor :=
  match ls with
  | [] => ret x
  | l :: rest => do y <- Linear_forward l x; Linears_forward rest y
  end.

(** [weight.data.zero_()] *)
Definition zero_ (w : matrix) : matrix := map (map (fun _ => 0)) w.

(** [bias.data.copy_(src)] for a source of the same size. *)
Definition copy_ (dst src : list R) : M (list R) :=
  if Nat.eqb (length dst) (length src) then ret src else raise RuntimeError.

(** [seq[-1]] with the change [f] applied to it. *)
Fixpoint update_last {A} (f : A -> M A) (l : list A) : M (list A) :=
  match l with
  | [] => raise IndexError
  | [x] => do y <- f x; ret [y]
  | x :: t => do t' <- update_last f t; ret (x :: t')
  end.

Record AffineNet : Type := {
  dropout_p : R;
  loc_C1 : Z;
  loc_C2 : Z;
  loc_C3 : Z;
  localization : list layer;
  S0 : Z;
  fc_loc : list Linear
}.

Definition identity_bias : list R := [1; 0; 0; 0;  0; 1; 0; 0;  0; 0; 1; 0].

(** [AffineNet.__init__]; [w0] and [b0] are the random initial values of the
    regressor. *)
Definition AffineNet_init (w0 : nat -> nat -> R) (b0 : nat -> R) : M AffineNet :=
  let dropout_p := 2 / 10 in
  let loc_C1 := 8%Z in
  let loc_C2 := 16%Z in
  let loc_C3 := 32%Z in
  let localization := [
    Conv3d 2 loc_C1 5;
    MaxPool3d 2 2;
    BatchNorm3d loc_C1; Dropout dropout_p;
    PReLU;
    Conv3d loc_C1 loc_C2 3;
    MaxPool3d 2 2;
    BatchNorm3d loc_C2; Dropout dropout_p;
    PReLU;
    Conv3d loc_C2 loc_C3 3;
    BatchNorm3d loc_C3; Dropout dropout_p;
    PReLU
  ] in
  let S0 := (((S - 4) / 2 - 2) / 2 - 2)%Z in
  let fc_loc := [Linear_new (loc_C3 * S0 ^ 3) (4 * 3) w0 b0] in
  do fc_loc <- update_last (fun lin =>
                 let w := zero_ (weight lin) in
                 do b <- copy_ (bias lin) identity_bias;
                 ret {| in_features := in_features lin;
                        out_features := out_features lin;
                        weight := w; bias := b |}) fc_loc;
  ret {| dropout_p := dropout_p;
         loc_C1 := loc_C1; loc_C2 := loc_C2; loc_C3 := loc_C3;
         localization := localization;
         S0 := S0;
         fc_loc := fc_loc |}.

(** [torch.nn.functional.affine_grid(theta, size)] for a 5-D [size]
    (N, C, D, H, W): [theta] must be a batch of N matrices of 3 rows and 4
    columns; the grid has one 3-D point per output voxel. *)
Definition affine_grid_shape (theta_shape size : list Z) : M (list Z) :=
  match size with
  | [B; C; D; H; W] =>
      if decide (theta_shape = [B; 3; 4]%Z) then ret [B; D; H; W; 3%Z]
      else raise RuntimeError
  | _ => raise RuntimeError
  end.

Definition affine_grid (bk : backend) (theta : tensor) (size : list Z) : M tensor :=
  do sh <- affine_grid_shape (shape theta) size;
  ret (mkTensor sh (affine_grid_data bk theta size)).

(** [torch.nn.functional.grid_sample(input, grid)] for a 5-D input: the batch
    sizes must agree and the grid holds 3-D points; the output has the
    channels of the input and the spatial size of the grid. *)
Definition grid_sample_shape (input_shape grid_shape : list Z) : M (list Z) :=
  match input_shape, grid_shape with
  | [B; C; _; _; _], [B'; D; H; W; c] =>
      if (B =? B')%Z && (c =? 3)%Z then ret [B; C; D; H; W]
      else raise RuntimeError
  | _, _ => raise RuntimeError
  end.

Definition grid_sample (bk : backend) (input grid : tensor) : M tensor :=
  do sh <- grid_sample_shape (shape input) (shape grid);
  ret (mkTensor sh (grid_sample_data bk input grid)).

(** The condition of the assertion in [forward]:
    [len(set(xs.shape[2:]))==1 and xs.shape[2]==self.S0]. *)
Definition assert_cond (self : AffineNet) (xs : tensor) : bool :=
  Nat.eqb (length (nodup Z.eq_dec (skipn 2 (shape xs)))) 1
  && (nth 2 (shape xs) 0 =? S0 self)%Z.

(** Spatial transformer network forward function *)
Definition forward (bk : backend) (self : AffineNet) (x : tensor)
    : M (tensor * tensor) :=
  do xs <- Sequential_forward bk 0 (localization self) x;
  if negb (assert_cond self xs) then raise AssertionError else
  do xs <- view xs [-1; loc_C3 self * S0 self ^ 3]%Z;
  do theta <- Linears_forward (fc_loc self) xs;
  do theta <- view theta [-1; 3; 4]%Z;
  do grid <- affine_grid bk theta (shape x);
  do x1 <- index_channels x [1%nat];
  do x' <- grid_sample bk x1 grid;
  ret (theta, x').

(** ** Cell 14: the known perfect transform *)

(** [[t for t in ts if t['class']=='RandAffined'][0]['extra_info']['affine']] *)
Definition recorded_affine (ts : list applied_transform) : M matrix :=
  match List.filter (fun t => String.eqb (class t) "RandAffined") ts with
  | [] => raise IndexError
  | t :: _ =>
      match extra_info t !! "affine"%string with
      | None => raise KeyError
      | Some m => ret m
      end
  end.

Definition get_perfect_transform_monai_coords (d : sample) : M matrix :=
  do phi1 <- recorded_affine (fixed_transforms d);
  do phi2 <- recorded_affine (moving_transforms d);
  linalg_solve phi2 phi1.

Definition N : matrix :=
  [[0; 0; 2 / IZR (S - 1); 0];
   [0; 2 / IZR (S - 1); 0; 0];
   [2 / IZR (S - 1); 0; 0; 0];
   [0; 0; 0; 1]].

(** We need to convert monai coords, which are based on grid values in
    [-(size-1)/2, (size-1)/2] to torch coords, which have different index
    ordering and are based on grid values in [-1,1]. *)
Definition get_perfect_transform_torch_coords (d : sample) : M matrix :=
  do theta <- get_perfect_transform_monai_coords d;
  do Ninv <- linalg_inv N;
  do t <- matmul theta Ninv;
  matmul N t.

(** ** Cell 20: the loss of one training step *)

(** [((t1 - t2)**2).sum()] for tensors of the same shape. *)
Definition sum_sq_diff (t1 t2 : tensor) : M R :=
  if decide (shape t1 = shape t2)
  then ret (rsum (map (fun p => (fst p - snd p) ^ 2) (combine (data t1) (data t2))))
  else raise RuntimeError.

(** A batch is kept as the list of its samples: [batch['fm']] is the stack of
    their [fm] fields and [decollate_batch] gives the samples back. *)
Definition train_step_loss (bk : backend) (model : AffineNet) (batch : list sample)
    : M R :=
  do x <- stack (map fm batch);
  do tw <- forward bk model x;
  let theta := fst tw in
  (* Drop the last row from these transforms-- it is always 0,0,0,1 *)
  do ps <- mapM get_perfect_transform_torch_coords batch;
  do st <- stack (map tensor_of_matrix ps);
  do perfect_theta <- take_rows 3 st;
  sum_sq_diff theta perfect_theta.

(** ** Cell 22: saving the model *)

Definition save_path (run_id : string) : string :=
  ("model_" ++ run_id ++ ".pth")%string.

(** The cell for a given [run_id]: the result and the file system after it.
    The file system maps a path to the serialized state stored there. *)
Definition save_model (run_id : string) (state_dict : list R) (fs : gmap string (list R))
    : M unit * gmap string (list R) :=
  match fs !! save_path run_id with
  | Some _ => (raise (Exception "change run_id before saving"), fs)
  | None => (ret tt, <[save_path run_id := state_dict]> fs)
  end.

Definition run_id : string := "002".

(** ** Vocabulary of the statements *)

(** A 4x4 matrix from its sixteen entries. *)
Definition mat44 (a00 a01 a02 a03 a10 a11 a12 a13
                  a20 a21 a22 a23 a30 a31 a32 a33 : R) : matrix :=
  [[a00; a01; a02; a03]; [a10; a11; a12; a13];
   [a20; a21; a22; a23]; [a30; a31; a32; a33]].

(** The random-affine steps of a pipeline, with the keys they apply to. *)
Definition rand_affine_steps (steps : list transform_step)
    : list (list string * RandAffine_params) :=
  flat_map (fun s => match s with
                     | RandAffineD ks p => [(ks, p)]
                     | _ => []
                     end) steps.

(** The product rotate * translate * scale of a draw. *)
Definition rotate_translate_scale (dr : affine_draw) : matrix :=
  mmul (mmul (create_rotate (rotate_params dr))
             (create_translate (translate_params dr)))
       (create_scale (scale_params dr)).

(** The two halves of [forward]: the regression of [theta] from the input, and
    the resampling of the input through the grid of a given [theta]. *)
Definition regress (bk : backend) (self : AffineNet) (x : tensor) : M tensor :=
  do xs <- Sequential_forward bk 0 (localization self) x;
  if negb (assert_cond self xs) then raise AssertionError else
  do xs <- view xs [-1; loc_C3 self * S0 self ^ 3]%Z;
  do theta <- Linears_forward (fc_loc self) xs;
  view theta [-1; 3; 4]%Z.

Definition resample (bk : backend) (x theta : tensor) : M tensor :=
  do grid <- affine_grid bk theta (shape x);
  do x1 <- index_channels x [1%nat];
  grid_sample bk x1 grid.

(** Shapes through a [Sequential]. *)
Fixpoint Sequential_shape (ls : list layer) (sh : list Z) : M (list Z) :=
  match ls with
  | [] => ret sh
  | l :: rest => do sh' <- layer_shape l sh; Sequential_shape rest sh'
  end.

(** The layers of the localization network. *)
Definition localization_layers : list layer :=
  [Conv3d 2 8 5; MaxPool3d 2 2; BatchNorm3d 8; Dropout (2 / 10); PReLU;
   Conv3d 8 16 3; MaxPool3d 2 2; BatchNorm3d 16; Dropout (2 / 10); PReLU;
   Conv3d 16 32 3; BatchNorm3d 32; Dropout (2 / 10); PReLU].

(** The regressor left by [AffineNet.__init__]. *)
Definition initial_fc (w0 : nat -> nat -> R) (b0 : nat -> R) : Linear := {|
  in_features := 32 * 12 ^ 3;
  out_features := 4 * 3;
  weight := zero_ (weight (Linear_new (32 * 12 ^ 3) (4 * 3) w0 b0));
  bias := identity_bias
|}.

(** The architecture fixed by [AffineNet.__init__], with [lin] as regressor. *)
Definition has_architecture (net : AffineNet) (lin : Linear) : Prop :=
  localization net = localization_layers
  /\ loc_C3 net = 32%Z
  /\ S0 net = 12%Z
  /\ fc_loc net = [lin]
  /\ in_features lin = 55296%Z
  /\ out_features lin = 12%Z
  /\ length (weight lin) = 12%nat
  /\ length (bias lin) = 12%nat.

(** Two Linear layers of the same sizes, whatever their parameter values. *)
Definition same_sizes (l1 l2 : Linear) : Prop :=
  in_features l1 = in_features l2
  /\ out_features l1 = out_features l2
  /\ Forall2 (fun r1 r2 => length r1 = length r2) (weight l1) (weight l2)
  /\ length (bias l1) = length (bias l2).

(** Two networks of the same architecture: training changes parameter values
    only. *)
Definition same_architecture (n1 n2 : AffineNet) : Prop :=
  localization n1 = localization n2
  /\ loc_C3 n1 = loc_C3 n2
  /\ S0 n1 = S0 n2
  /\ Forall2 same_sizes (fc_loc n1) (fc_loc n2).

(** The data of two backends agree on the localization layers. *)
Definition same_layers (bk bk' : backend) : Prop :=
  forall i l t, layer_data bk i l t = layer_data bk' i l t.

(** The first component of a result. *)
Definition fst_result {A B} (m : M (A * B)) : M A :=
  match m with
  | inl e => inl e
  | inr p => inr (fst p)
  end.

(** The three rows of the identity affine. *)
Definition identity_theta : matrix := firstn 3 (eye 4).

(** The rows of [theta] computed by the regressor [lin] from the features. *)
Definition theta_data (lin : Linear) (B : Z) (features : list R) : list R :=
  concat (map (fun r => Linear_row lin
                          (slice (r * Z.to_nat 55296) (Z.to_nat 55296) features))
              (seq 0 (Z.to_nat B))).

(** What the pipeline guarantees about the tensors of a sample: the two
    volumes have one channel and the same spatial size, and [fm] is their
    concatenation along the channel dimension, fixed first. *)
Definition concatenated (D H W : Z) (d : sample) : Prop :=
  shape (fixed d) = [1; D; H; W]%Z
  /\ shape (moving d) = [1; D; H; W]%Z
  /\ length (data (fixed d)) = Z.to_nat (numel [D; H; W])
  /\ length (data (moving d)) = Z.to_nat (numel [D; H; W])
  /\ ConcatItemsD_apply (fixed d) (moving d) = inr (fm d).

(** ** Concrete inputs *)

(** A tensor of zeros of a given shape. *)
Definition zeros (sh : list Z) : tensor :=
  mkTensor sh (repeat 0 (Z.to_nat (numel sh))).

(** A sample whose fixed volume was translated and whose moving volume was
    scaled, with the records the pipeline leaves. *)
Definition example_phi1 : matrix := create_translate [1; 2; 3].
Definition example_phi2 : matrix := create_scale [2; 1; 4].

Definition example_sample : sample := {|
  fixed := zeros [1; S; S; S]%Z;
  moving := zeros [1; S; S; S]%Z;
  fm := zeros [2; S; S; S]%Z;
  fixed_transforms :=
    [ {| class := "Resized"; extra_info := ∅ |};
      {| class := "RandAffined"; extra_info := {[ "affine"%string := example_phi1 ]} |} ];
  moving_transforms :=
    [ {| class := "Resized"; extra_info := ∅ |};
      {| class := "RandAffined"; extra_info := {[ "affine"%string := example_phi2 ]} |} ]
|}.

(** Two draws within the ranges of [rand_affine_params]. *)
Definition example_draw : affine_draw := {|
  rotate_params := [1 / 10; 0; - (2 / 10)];
  shear_params := [0; 0; 0; 0; 0; 0];
  translate_params := [1; 0; - 1];
  scale_params := [1 + 5 / 100; 1; 1 - 5 / 100]
|}.

Definition example_draw2 : affine_draw := {|
  rotate_params := [0; 3 / 10; 0];
  shear_params := [0; 0; 0; 0; 0; 0];
  translate_params := [0; 1; 1];
  scale_params := [1; 1 - 3 / 100; 1 + 3 / 100]
|}.

(** A sample whose two volumes were perturbed by the two example draws. *)
Definition example_drawn_sample : sample := {|
  fixed := zeros [1; S; S; S]%Z;
  moving := zeros [1; S; S; S]%Z;
  fm := zeros [2; S; S; S]%Z;
  fixed_transforms := [RandAffined_record example_draw];
  moving_transforms := [RandAffined_record example_draw2]
|}.

(** A network as constructed, a network of the same architecture with other
    parameter values, a backend and an input batch of one sample. *)
Definition example_net : AffineNet := {|
  dropout_p := 2 / 10;
  loc_C1 := 8; loc_C2 := 16; loc_C3 := 32;
  localization := localization_layers;
  S0 := 12;
  fc_loc := [initial_fc (fun _ _ => 1) (fun _ => 1)]
|}.

Definition example_trained_net : AffineNet := {|
  dropout_p := 2 / 10;
  loc_C1 := 8; loc_C2 := 16; loc_C3 := 32;
  localization := localization_layers;
  S0 := 12;
  fc_loc := [ {| in_features := 55296; out_features := 12;
                 weight := map (map (Rplus 1))
                               (weight (initial_fc (fun _ _ => 1) (fun _ => 1)));
                 bias := map (Rplus 1) identity_bias |} ]
|}.

Definition example_backend : backend := {|
  layer_data := fun _ l t =>
    match layer_shape l (shape t) with
    | inr sh => repeat 0 (Z.to_nat (numel sh))
    | inl _ => []
    end;
  affine_grid_data := fun theta size =>
    match affine_grid_shape (shape theta) size with
    | inr sh => repeat 0 (Z.to_nat (numel sh))
    | inl _ => []
    end;
  grid_sample_data := fun input grid =>
    match grid_sample_shape (shape input) (shape grid) with
    | inr sh => repeat 0 (Z.to_nat (numel sh))
    | inl _ => []
    end
|}.

Definition example_input : tensor := zeros [1; 2; S; S; S]%Z.

(** Two small samples with distinct fixed and moving volumes. *)
Definition small_sample (f m : R) : sample := {|
  fixed := mkTensor [1; 1; 1; 2]%Z [f; f + 1];
  moving := mkTensor [1; 1; 1; 2]%Z [m; m + 1];
  fm := mkTensor [2; 1; 1; 2]%Z [f; f + 1; m; m + 1];
  fixed_transforms := [];
  moving_transforms := []
|}.

Definition example_batch : list sample := [small_sample 1 10; small_sample 3 30].

(** * The other cells of the notebook *)

(** ** Cell 5: every ordered pair of volumes *)

Record data_pair : Type := { fixed_path : string; moving_path : string }.

(** [[{'fixed':img0, 'moving':img1} for img0 in paths for img1 in paths]] *)
Definition data_pairs (image_paths : list string) : list data_pair :=
  flat_map (fun img0 =>
              map (fun img1 => {| fixed_path := img0; moving_path := img1 |})
                  image_paths)
           image_paths.

(** ** Cells 13, 16 and 24: one sample through the model, and the perfect warp *)

(** [t.unsqueeze(0)] *)
Definition unsqueeze0 (t : tensor) : tensor := mkTensor (1%Z :: shape t) (data t).

(** [theta, warped = model(d['fm'].unsqueeze(0))] *)
Definition model_on_sample (bk : backend) (model : AffineNet) (d : sample)
    : M (tensor * tensor) :=
  forward bk model (unsqueeze0 (fm d)).


(** ** Cell 20: the training loop *)

Definition print_loss_every : nat := 1.
Definition batches_per_epoch : nat := 20.

(** What the notebook does not define about training: the state that one
    optimizer step changes (the parameters of the model and the moments of the
    optimizer), the model of a state, and the step itself
    ([loss.backward(); opt.step()] on a batch). *)
Record trainer : Type := {
  tstate : Type;
  model_of : tstate -> AffineNet;
  opt_step : tstate -> list sample -> tstate
}.

(** [np.mean]: not a number on an empty list. *)
Definition np_mean (l : list R) : option R :=
  match l with
  | [] => None
  | _ => Some (rsum l / INR (length l))
  end.

(** The inner loop over the batches of one epoch; [batch_number] counts the
    batches already processed and the loop breaks at [batches_per_epoch]. *)
Fixpoint epoch_batches (bk : backend) (tr : trainer) (batch_number : nat)
    (batches : list (list sample)) (st : tstate tr) (losses : list R)
    : M (tstate tr * list R) :=
  match batches with
  | [] => ret (st, losses)
  | batch :: rest =>
      if Nat.leb batches_per_epoch batch_number then ret (st, losses)
      else
        do loss <- train_step_loss bk (model_of tr st) batch;
        epoch_batches bk tr (Datatypes.S batch_number) rest
                      (opt_step tr st batch) (losses ++ [loss])
  end.

(** The outer loop; [loader epoch] is the sequence of batches the shuffling
    data loader yields in that epoch. *)
Fixpoint epochs_loop (bk : backend) (tr : trainer) (epochs : list nat)
    (loader : nat -> list (list sample)) (st : tstate tr)
    (losses : list R) (losses_to_plot : list (option R))
    : M (tstate tr * list R * list (option R)) :=
  match epochs with
  | [] => ret (st, losses, losses_to_plot)
  | epoch :: rest =>
      do r <- epoch_batches bk tr 0 (loader epoch) st losses;
      if Nat.eqb (epoch mod print_loss_every) 0
      then epochs_loop bk tr rest loader (fst r) []
                       (losses_to_plot ++ [np_mean (snd r)])
      else epochs_loop bk tr rest loader (fst r) (snd r) losses_to_plot
  end.

Definition training_loop (bk : backend) (tr : trainer)
    (loader : nat -> list (list sample)) (st : tstate tr)
    (losses_to_plot : list (option R))
    : M (tstate tr * list R * list (option R)) :=
  epochs_loop bk tr (seq 0 200) loader st [] losses_to_plot.

(** ** Cell 23: loading a model *)

(** The errors of a cell that reads a file. *)
Inductive cell_error : Type :=
| PyError (e : error)
| FileNotFoundError (path : string).

(** The cell for a given [run_id].  [save_path_var] is the value of the global
    [save_path], which this cell reads and does not assign. *)
Definition load_model (run_id : string) (save_path_var : string)
    (fs : gmap string (list R)) : cell_error + list R :=
  let load_path := ("model_" ++ run_id ++ ".pth")%string in
  match fs !! save_path_var with
  | None => inl (PyError (Exception ("model " ++ save_path_var ++ " not found")))
  | Some _ =>
      match fs !! load_path with
      | Some state_dict => inr state_dict
      | None => inl (FileNotFoundError load_path)
      end
  end.

(** ** Vocabulary of the further statements *)

(** A 4x4 matrix whose last row is 0, 0, 0, 1. *)
Definition is_affine (A : matrix) : Prop :=
  is_mat 4 4 A /\ nth 3 A [] = [0; 0; 0; 1].


(** A sample the training step can use: its [fm] field has two channels of
    64^3 voxels and its perfect transform is known. *)
Definition trainable (d : sample) : Prop :=
  shape (fm d) = [2; 64; 64; 64]%Z
  /\ exists p, get_perfect_transform_torch_coords d = inr p.

(** An optimizer step that changes parameter values only. *)
Definition keeps_architecture (tr : trainer) : Prop :=
  forall st batch,
    same_architecture (model_of tr (opt_step tr st batch)) (model_of tr st).



(** A batch the training step can use. *)
Definition well_formed_batch (batch : list sample) : Prop :=
  batch <> [] /\ Forall trainable batch.

(** A network of the architecture of [AffineNet.__init__], for some regressor
    parameters. *)
Definition has_some_architecture (net : AffineNet) : Prop :=
  exists lin, has_architecture net lin.

(** What one epoch adds to [losses_to_plot]: not a number when the loader
    yields no batch, a non-negative mean otherwise. *)
Definition epoch_entry (loader : nat -> list (list sample)) (epoch : nat)
    (m : option R) : Prop :=
  (loader epoch = [] -> m = None)
  /\ (loader epoch <> [] -> exists v, m = Some v /\ 0 <= v).

(** ** Further concrete inputs *)

(** A sample whose two volumes were perturbed by the same draw. *)
Definition same_perturbation_sample : sample := {|
  fixed := zeros [1; S; S; S]%Z;
  moving := zeros [1; S; S; S]%Z;
  fm := zeros [2; S; S; S]%Z;
  fixed_transforms := [RandAffined_record example_draw];
  moving_transforms := [RandAffined_record example_draw]
|}.

(** [example_drawn_sample] with the roles of its two volumes exchanged. *)
Definition example_drawn_sample_swapped : sample := {|
  fixed := moving example_drawn_sample;
  moving := fixed example_drawn_sample;
  fm := zeros [2; S; S; S]%Z;
  fixed_transforms := moving_transforms example_drawn_sample;
  moving_transforms := fixed_transforms example_drawn_sample
|}.

(** A sample whose first RandAffined record has no 'affine' entry. *)
Definition sample_without_affine : sample := {|
  fixed := zeros [1; S; S; S]%Z;
  moving := zeros [1; S; S; S]%Z;
  fm := zeros [2; S; S; S]%Z;
  fixed_transforms :=
    [ {| class := "Resized"; extra_info := ∅ |};
      {| class := "RandAffined"; extra_info := {[ "other"%string := eye 4 ]} |};
      RandAffined_record example_draw ];
  moving_transforms := [RandAffined_record example_draw2]
|}.


(** A sample with several RandAffined records. *)
Definition sample_with_two_records : sample := {|
  fixed := zeros [1; S; S; S]%Z;
  moving := zeros [1; S; S; S]%Z;
  fm := zeros [2; S; S; S]%Z;
  fixed_transforms :=
    [ {| class := "Resized"; extra_info := ∅ |};
      RandAffined_record example_draw;
      RandAffined_record example_draw2 ];
  moving_transforms :=
    [ RandAffined_record example_draw2;
      {| class := "RandAffined"; extra_info := ∅ |} ]
|}.

(** A sample of 64^3 volumes whose [fm] field is the concatenation of its
    fixed and moving volumes. *)
Definition example_concat_sample : sample := {|
  fixed := zeros [1; 64; 64; 64]%Z;
  moving := zeros [1; 64; 64; 64]%Z;
  fm := mkTensor [2; 64; 64; 64]%Z
          (data (zeros [1; 64; 64; 64]%Z) ++ data (zeros [1; 64; 64; 64]%Z));
  fixed_transforms := [RandAffined_record example_draw];
  moving_transforms := [RandAffined_record example_draw2]
|}.

(** A trainer whose step adds one to every parameter of the regressor, and a
    loader that yields 25 batches of two samples in every epoch. *)
Definition bump (l : Linear) : Linear := {|
  in_features := in_features l;
  out_features := out_features l;
  weight := map (map (Rplus 1)) (weight l);
  bias := map (Rplus 1) (bias l)
|}.

Definition example_trainer : trainer := {|
  tstate := AffineNet;
  model_of := fun net => net;
  opt_step := fun net _ => {|
    dropout_p := dropout_p net;
    loc_C1 := loc_C1 net; loc_C2 := loc_C2 net; loc_C3 := loc_C3 net;
    localization := localization net;
    S0 := S0 net;
    fc_loc := map bump (fc_loc net)
  |}
|}.

Definition example_loader (epoch : nat) : list (list sample) :=
  repeat [example_sample; example_drawn_sample] 25.

(** * Properties *)

(** ** The error monad *)

Lemma bind_inr {A B} (m : M A) (k : A -> M B) (b : B) :
  bind m k = inr b -> exists x, m = inr x /\ k x = inr b.
Proof.
  destruct m as [e|x]; simpl; [discriminate|]. intros H. now exists x.
Qed.

(** ** 4x4 matrices *)

Lemma length4_explicit (r : list R) :
  length r = 4%nat -> exists x0 x1 x2 x3, r = [x0; x1; x2; x3].
Proof.
  destruct r as [|x0 [|x1 [|x2 [|x3 [|? ?]]]]]; try discriminate.
  intros _. now exists x0, x1, x2, x3.
Qed.

Lemma is_mat44_explicit A :
  is_mat 4 4 A ->
  exists a00 a01 a02 a03 a10 a11 a12 a13 a20 a21 a22 a23 a30 a31 a32 a33,
    A = mat44 a00 a01 a02 a03 a10 a11 a12 a13 a20 a21 a22 a23 a30 a31 a32 a33.
Proof.
  intros [Hl Hr].
  destruct A as [|r0 [|r1 [|r2 [|r3 [|? ?]]]]]; try discriminate.
  apply Forall_cons_iff in Hr as [H0 Hr].
  apply Forall_cons_iff in Hr as [H1 Hr].
  apply Forall_cons_iff in Hr as [H2 Hr].
  apply Forall_cons_iff in Hr as [H3 _].
  destruct (length4_explicit _ H0) as (? & ? & ? & ? & ->).
  destruct (length4_explicit _ H1) as (? & ? & ? & ? & ->).
  destruct (length4_explicit _ H2) as (? & ? & ? & ? & ->).
  destruct (length4_explicit _ H3) as (? & ? & ? & ? & ->).
  unfold mat44. repeat eexists.
Qed.

Lemma mat44_is_mat a00 a01 a02 a03 a10 a11 a12 a13 a20 a21 a22 a23 a30 a31 a32 a33 :
  is_mat 4 4 (mat44 a00 a01 a02 a03 a10 a11 a12 a13 a20 a21 a22 a23 a30 a31 a32 a33).
Proof. split; [reflexivity|]. repeat constructor. Qed.

(** Shape facts about 4x4 matrices are collected in a hint database. *)
Create HintDb mat44.
#[local] Hint Resolve mat44_is_mat : mat44.
#[local] Hint Extern 1 (is_mat 4 4 (_ :: _)) => apply mat44_is_mat : mat44.

Ltac explicit44 A HA :=
  let a00 := fresh A "00" in let a01 := fresh A "01" in
  let a02 := fresh A "02" in let a03 := fresh A "03" in
  let a10 := fresh A "10" in let a11 := fresh A "11" in
  let a12 := fresh A "12" in let a13 := fresh A "13" in
  let a20 := fresh A "20" in let a21 := fresh A "21" in
  let a22 := fresh A "22" in let a23 := fresh A "23" in
  let a30 := fresh A "30" in let a31 := fresh A "31" in
  let a32 := fresh A "32" in let a33 := fresh A "33" in
  destruct (is_mat44_explicit A HA)
    as (a00 & a01 & a02 & a03 & a10 & a11 & a12 & a13
        & a20 & a21 & a22 & a23 & a30 & a31 & a32 & a33 & ->).

Ltac mat_simp :=
  cbv [mmul inverse adjugate cofactor minor det det_rec remove_nth column dot
       rsum ncols nrows eye map seq fold_right combine hd nth length fst snd
       Nat.eqb Nat.add pow mat44].

Ltac mat_simp_in H :=
  cbv [mmul inverse adjugate cofactor minor det det_rec remove_nth column dot
       rsum ncols nrows eye map seq fold_right combine hd nth length fst snd
       Nat.eqb Nat.add pow mat44] in H.

Ltac list_eq := repeat match goal with |- (_ :: _) = (_ :: _) => f_equal end.

(** An entry of [inverse A * A]: the cofactor sums are [det A] on the diagonal
    and vanish elsewhere. *)
Ltac inv_entry HD Hd :=
  match type of HD with
  | ?D = ?E =>
      match goal with
      | |- _ = 0 => ring
      | |- _ = 1 => transitivity (E * / D); [ring | rewrite <- HD; field; exact Hd]
      end
  end.

Lemma inverse44_l A : is_mat 4 4 A -> det A <> 0 -> mmul (inverse A) A = eye 4.
Proof.
  intros HA Hd. explicit44 A HA.
  unfold inverse. remember (det _) as D eqn:HD. mat_simp_in HD.
  mat_simp. unfold Rdiv. list_eq; inv_entry HD Hd.
Qed.

Lemma inverse44_r A : is_mat 4 4 A -> det A <> 0 -> mmul A (inverse A) = eye 4.
Proof.
  intros HA Hd. explicit44 A HA.
  unfold inverse. remember (det _) as D eqn:HD. mat_simp_in HD.
  mat_simp. unfold Rdiv. list_eq; inv_entry HD Hd.
Qed.

Lemma mmul44_assoc A B C :
  is_mat 4 4 A -> is_mat 4 4 B -> is_mat 4 4 C ->
  mmul (mmul A B) C = mmul A (mmul B C).
Proof.
  intros HA HB HC. explicit44 A HA. explicit44 B HB. explicit44 C HC.
  mat_simp. list_eq; ring.
Qed.

Lemma mmul44_eye_l A : is_mat 4 4 A -> mmul (eye 4) A = A.
Proof. intros HA. explicit44 A HA. mat_simp. list_eq; ring. Qed.

Lemma mmul44_eye_r A : is_mat 4 4 A -> mmul A (eye 4) = A.
Proof. intros HA. explicit44 A HA. mat_simp. list_eq; ring. Qed.

Lemma det44_mmul A B :
  is_mat 4 4 A -> is_mat 4 4 B -> det (mmul A B) = det A * det B.
Proof.
  intros HA HB. explicit44 A HA. explicit44 B HB. mat_simp. ring.
Qed.

Lemma det_eye4 : det (eye 4) = 1.
Proof. mat_simp. ring. Qed.

Lemma mmul44_is_mat A B : is_mat 4 4 A -> is_mat 4 4 B -> is_mat 4 4 (mmul A B).
Proof.
  intros HA HB. explicit44 A HA. explicit44 B HB. apply mat44_is_mat.
Qed.

Lemma inverse44_is_mat A : is_mat 4 4 A -> is_mat 4 4 (inverse A).
Proof. intros HA. explicit44 A HA. apply mat44_is_mat. Qed.

#[local] Hint Resolve mmul44_is_mat inverse44_is_mat : mat44.

Lemma is_mat44_shape A :
  is_mat 4 4 A -> rectangular A = true /\ ncols A = 4%nat /\ nrows A = 4%nat.
Proof. intros HA. explicit44 A HA. repeat split. Qed.

Lemma is_mat44_square A : is_mat 4 4 A -> is_square A = true.
Proof. intros HA. explicit44 A HA. reflexivity. Qed.

Lemma invertible44_det A : is_mat 4 4 A -> invertible A -> det A <> 0.
Proof.
  intros HA (A' & HA' & _ & Hl) Hd.
  destruct HA as [Hlen HA0]. rewrite Hlen in HA', Hl.
  assert (H : det (mmul A' A) = 1) by (rewrite Hl; apply det_eye4).
  rewrite det44_mmul in H by (auto || now split). rewrite Hd in H. lra.
Qed.

Lemma det44_invertible A : is_mat 4 4 A -> det A <> 0 -> invertible A.
Proof.
  intros HA Hd. exists (inverse A). destruct HA as [Hlen HA0].
  rewrite Hlen. assert (HA : is_mat 4 4 A) by now split.
  split; [now apply inverse44_is_mat|].
  split; [now apply inverse44_r | now apply inverse44_l].
Qed.

Lemma matmul44 A B :
  is_mat 4 4 A -> is_mat 4 4 B -> matmul A B = inr (mmul A B).
Proof.
  intros HA HB. unfold matmul.
  destruct (is_mat44_shape A HA) as (-> & -> & _).
  destruct (is_mat44_shape B HB) as (-> & _ & ->). reflexivity.
Qed.

Lemma linalg_inv44 A :
  is_mat 4 4 A -> det A <> 0 -> linalg_inv A = inr (inverse A).
Proof.
  intros HA Hd. unfold linalg_inv. rewrite is_mat44_square by assumption.
  destruct (Req_dec_T (det A) 0); [contradiction | reflexivity].
Qed.

Lemma linalg_solve44 A B :
  is_mat 4 4 A -> is_mat 4 4 B -> det A <> 0 ->
  linalg_solve A B = inr (mmul (inverse A) B).
Proof.
  intros HA HB Hd. unfold linalg_solve. rewrite is_mat44_square by assumption.
  destruct (is_mat44_shape A HA) as (_ & _ & ->).
  destruct (is_mat44_shape B HB) as (-> & _ & ->). simpl.
  destruct (Req_dec_T (det A) 0); [contradiction | reflexivity].
Qed.

(** A singular coefficient matrix makes [linalg_solve] raise. *)
Lemma linalg_solve_singular A B : det A = 0 -> exists e, linalg_solve A B = inl e.
Proof.
  intros Hd. unfold linalg_solve.
  destruct (is_square A && rectangular B && Nat.eqb (nrows B) (nrows A)).
  - destruct (Req_dec_T (det A) 0); [now exists LinAlgError | contradiction].
  - now exists RuntimeError.
Qed.

Example det_example_phi2 : det example_phi2 = 8.
Proof. unfold example_phi2, create_scale. mat_simp. ring. Qed.

Example singular_solve_raises :
  linalg_solve [[0; 0]; [0; 0]] [[1; 0]; [0; 1]] = inl LinAlgError.
Proof.
  unfold linalg_solve. simpl.
  destruct (Req_dec_T _ 0) as [_|Hne]; [reflexivity|].
  exfalso. apply Hne. unfold det. simpl. ring.
Qed.

(** ** The known perfect transform (cell 14) *)

Lemma N_is_mat : is_mat 4 4 N.
Proof. apply mat44_is_mat. Qed.

#[local] Hint Resolve N_is_mat : mat44.

Lemma S_minus_1 : IZR (S - 1) = 63.
Proof. reflexivity. Qed.

Lemma det_N : det N = - (2 / 63) ^ 3.
Proof. unfold N. rewrite S_minus_1. mat_simp. field. Qed.

Lemma det_N_neq0 : det N <> 0.
Proof. rewrite det_N. lra. Qed.

(** The inverse of [N], entry by entry. *)
Lemma inverse_N :
  inverse N = [[0; 0; 63 / 2; 0]; [0; 63 / 2; 0; 0]; [63 / 2; 0; 0; 0]; [0; 0; 0; 1]].
Proof.
  unfold inverse. rewrite det_N. unfold N. rewrite S_minus_1.
  mat_simp. list_eq; field.
Qed.

(** [N] applied to a homogeneous point reverses the order of the three axes
    and multiplies each coordinate by [2/(S-1)]. *)
Lemma N_apply (x y z : R) :
  mmul N [[x]; [y]; [z]; [1]]
  = [[2 * z / IZR (S - 1)]; [2 * y / IZR (S - 1)]; [2 * x / IZR (S - 1)]; [1]].
Proof. unfold N. rewrite S_minus_1. mat_simp. list_eq; field. Qed.

Lemma recorded_affine_first pre t post m :
  Forall (fun t' => class t' <> "RandAffined"%string) pre ->
  class t = "RandAffined"%string ->
  extra_info t !! "affine"%string = Some m ->
  recorded_affine (pre ++ t :: post) = inr m.
Proof.
  intros Hpre Hc Hm. unfold recorded_affine.
  induction pre as [|p pre IH]; simpl.
  - rewrite Hc. simpl. now rewrite Hm.
  - apply Forall_cons_iff in Hpre as [Hp Hpre].
    destruct (String.eqb_spec (class p) "RandAffined"); [contradiction|].
    now apply IH.
Qed.

Lemma get_perfect_transform_monai_coords_eq (d : sample) (phi1 phi2 : matrix) :
  recorded_affine (fixed_transforms d) = inr phi1 ->
  recorded_affine (moving_transforms d) = inr phi2 ->
  is_mat 4 4 phi1 -> is_mat 4 4 phi2 -> det phi2 <> 0 ->
  get_perfect_transform_monai_coords d = inr (mmul (inverse phi2) phi1).
Proof.
  intros H1 H2 Hm1 Hm2 Hd. unfold get_perfect_transform_monai_coords.
  rewrite H1, H2. simpl. now apply linalg_solve44.
Qed.

Lemma example_phi1_is_mat : is_mat 4 4 example_phi1.
Proof. apply mat44_is_mat. Qed.

Lemma example_phi2_is_mat : is_mat 4 4 example_phi2.
Proof. apply mat44_is_mat. Qed.

Lemma example_phi2_det : det example_phi2 <> 0.
Proof.
  unfold example_phi2, create_scale. mat_simp. lra.
Qed.

Lemma example_recorded_fixed :
  recorded_affine (fixed_transforms example_sample) = inr example_phi1.
Proof. reflexivity. Qed.

Lemma example_recorded_moving :
  recorded_affine (moving_transforms example_sample) = inr example_phi2.
Proof. reflexivity. Qed.

(** C3: for a sample whose fixed and moving volumes were perturbed by the
    recorded 4x4 affines [phi1] and [phi2], [phi2] invertible,
    [get_perfect_transform_monai_coords] returns [phi2^-1 * phi1]; this matrix
    solves [phi2 * X = phi1] and is the only 4x4 matrix that does. *)
Theorem perfect_transform_monai_coords_solves (d : sample) (phi1 phi2 : matrix) :
  recorded_affine (fixed_transforms d) = inr phi1 ->
  recorded_affine (moving_transforms d) = inr phi2 ->
  is_mat 4 4 phi1 -> is_mat 4 4 phi2 -> invertible phi2 ->
  get_perfect_transform_monai_coords d = inr (mmul (inverse phi2) phi1)
  /\ mmul (inverse phi2) phi2 = eye 4
  /\ mmul phi2 (inverse phi2) = eye 4
  /\ mmul phi2 (mmul (inverse phi2) phi1) = phi1
  /\ (forall X, is_mat 4 4 X -> mmul phi2 X = phi1 ->
                X = mmul (inverse phi2) phi1).
Proof.
  intros H1 H2 Hm1 Hm2 Hinv.
  assert (Hd : det phi2 <> 0) by now apply invertible44_det.
  assert (Hi : is_mat 4 4 (inverse phi2)) by now apply inverse44_is_mat.
  repeat split.
  - now apply get_perfect_transform_monai_coords_eq.
  - now apply inverse44_l.
  - now apply inverse44_r.
  - rewrite <- mmul44_assoc by assumption.
    rewrite inverse44_r by assumption. now apply mmul44_eye_l.
  - intros X HX HXeq. rewrite <- HXeq.
    rewrite <- mmul44_assoc by assumption.
    rewrite inverse44_l by assumption. symmetry. now apply mmul44_eye_l.
Qed.

Lemma perfect_transform_monai_coords_solves_witness :
  invertible example_phi2
  /\ get_perfect_transform_monai_coords example_sample
     = inr (mmul (inverse example_phi2) example_phi1)
  /\ mmul example_phi2 (mmul (inverse example_phi2) example_phi1) = example_phi1.
Proof.
  assert (Hinv : invertible example_phi2)
    by exact (det44_invertible _ example_phi2_is_mat example_phi2_det).
  split; [exact Hinv|].
  destruct (perfect_transform_monai_coords_solves example_sample
              example_phi1 example_phi2
              example_recorded_fixed example_recorded_moving
              example_phi1_is_mat example_phi2_is_mat Hinv)
    as (H1 & _ & _ & H2 & _).
  split; [exact H1 | exact H2].
Defined.

Lemma torch_coords_of_monai d theta :
  is_mat 4 4 theta ->
  get_perfect_transform_monai_coords d = inr theta ->
  get_perfect_transform_torch_coords d = inr (mmul N (mmul theta (inverse N))).
Proof.
  intros Hm H0. unfold get_perfect_transform_torch_coords. rewrite H0. simpl.
  rewrite (linalg_inv44 N N_is_mat det_N_neq0). simpl.
  rewrite matmul44 by auto with mat44. simpl.
  apply matmul44; auto with mat44.
Qed.

(** C1: on a sample whose perfect transform in the augmentation framework's
    coordinates is the 4x4 matrix [theta], [get_perfect_transform_torch_coords]
    returns [N * theta * N^-1].  [N] is invertible, it reverses the order of
    the three axes and multiplies each coordinate by [2/(S-1)], so it maps
    grid values in [-(S-1)/2, (S-1)/2] onto [-1, 1]; two samples with the same
    [theta] get the same result. *)
Theorem perfect_transform_torch_coords_conjugation (d : sample) (theta : matrix) :
  is_mat 4 4 theta ->
  get_perfect_transform_monai_coords d = inr theta ->
  get_perfect_transform_torch_coords d = inr (mmul N (mmul theta (inverse N)))
  /\ mmul N (inverse N) = eye 4
  /\ mmul (inverse N) N = eye 4
  /\ (forall x y z,
        mmul N [[x]; [y]; [z]; [1]]
        = [[2 * z / IZR (S - 1)]; [2 * y / IZR (S - 1)]; [2 * x / IZR (S - 1)]; [1]])
  /\ (let h := IZR (S - 1) / 2 in
      mmul N [[h]; [h]; [h]; [1]] = [[1]; [1]; [1]; [1]]
      /\ mmul N [[- h]; [- h]; [- h]; [1]] = [[-1]; [-1]; [-1]; [1]])
  /\ (forall d', get_perfect_transform_monai_coords d' = inr theta ->
        get_perfect_transform_torch_coords d'
        = get_perfect_transform_torch_coords d).
Proof.
  intros Hm Ht.
  assert (Hconj := fun d0 => torch_coords_of_monai d0 theta Hm).
  split; [now apply Hconj|].
  split; [apply inverse44_r; auto using det_N_neq0 with mat44|].
  split; [apply inverse44_l; auto using det_N_neq0 with mat44|].
  split; [apply N_apply|].
  split.
  - cbv zeta. rewrite !N_apply, S_minus_1. split; list_eq; field.
  - intros d' Hd'. rewrite (Hconj d' Hd'). symmetry. now apply Hconj.
Qed.

Lemma perfect_transform_torch_coords_conjugation_witness :
  get_perfect_transform_torch_coords example_sample
  = inr (mmul N (mmul (mmul (inverse example_phi2) example_phi1) (inverse N))).
Proof.
  apply (perfect_transform_torch_coords_conjugation example_sample
           (mmul (inverse example_phi2) example_phi1)).
  - apply mmul44_is_mat.
    + apply inverse44_is_mat, example_phi2_is_mat.
    + apply example_phi1_is_mat.
  - apply get_perfect_transform_monai_coords_eq.
    + reflexivity.
    + reflexivity.
    + apply example_phi1_is_mat.
    + apply example_phi2_is_mat.
    + apply example_phi2_det.
Defined.

(** ** The augmentation pipeline (cell 7) *)

Lemma drawn_from_zero (n : nat) (vals : list R) :
  drawn_from (repeat 0 n) 0 vals -> vals = repeat 0 n.
Proof.
  unfold drawn_from. revert vals.
  induction n as [|n IH]; intros vals H; inversion H; subst; simpl.
  - reflexivity.
  - f_equal; [lra | now apply IH].
Qed.

Lemma create_rotate_is_mat rad : is_mat 4 4 (create_rotate rad).
Proof.
  unfold create_rotate.
  apply mmul44_is_mat; [apply mmul44_is_mat|]; apply mat44_is_mat.
Qed.

Lemma det_rot_x (c s : R) :
  s * s + c * c = 1 ->
  det [[1; 0; 0; 0]; [0; c; - s; 0]; [0; s; c; 0]; [0; 0; 0; 1]] = 1.
Proof. intros H. mat_simp. transitivity (s * s + c * c); [ring | exact H]. Qed.

Lemma det_rot_y (c s : R) :
  s * s + c * c = 1 ->
  det [[c; 0; s; 0]; [0; 1; 0; 0]; [- s; 0; c; 0]; [0; 0; 0; 1]] = 1.
Proof. intros H. mat_simp. transitivity (s * s + c * c); [ring | exact H]. Qed.

Lemma det_rot_z (c s : R) :
  s * s + c * c = 1 ->
  det [[c; - s; 0; 0]; [s; c; 0; 0]; [0; 0; 1; 0]; [0; 0; 0; 1]] = 1.
Proof. intros H. mat_simp. transitivity (s * s + c * c); [ring | exact H]. Qed.

Lemma det_create_rotate rad : det (create_rotate rad) = 1.
Proof.
  unfold create_rotate.
  do 2 rewrite det44_mmul
    by (try apply mmul44_is_mat; apply mat44_is_mat).
  rewrite det_rot_x, det_rot_y, det_rot_z by apply sin2_cos2. ring.
Qed.

Lemma det_create_translate t : det (create_translate t) = 1.
Proof. unfold create_translate. mat_simp. ring. Qed.

Lemma det_create_scale s :
  det (create_scale s) = nth 0 s 1 * nth 1 s 1 * nth 2 s 1.
Proof. unfold create_scale. mat_simp. ring. Qed.

Lemma rotate_translate_scale_is_mat dr : is_mat 4 4 (rotate_translate_scale dr).
Proof.
  unfold rotate_translate_scale.
  apply mmul44_is_mat; [apply mmul44_is_mat|]; try apply mat44_is_mat.
Qed.

Lemma det_rotate_translate_scale dr :
  det (rotate_translate_scale dr)
  = nth 0 (scale_params dr) 1 * nth 1 (scale_params dr) 1 * nth 2 (scale_params dr) 1.
Proof.
  unfold rotate_translate_scale.
  rewrite det44_mmul
    by (try apply mmul44_is_mat; try apply create_rotate_is_mat; apply mat44_is_mat).
  rewrite det44_mmul by (try apply create_rotate_is_mat; apply mat44_is_mat).
  rewrite det_create_rotate, det_create_translate, det_create_scale. ring.
Qed.

Lemma drawn_scales_positive (vals : list R) :
  drawn_from (scale_range rand_affine_params) 1 vals ->
  0 < nth 0 vals 1 * nth 1 vals 1 * nth 2 vals 1.
Proof.
  unfold drawn_from. cbn [scale_range rand_affine_params repeat]. unfold a.
  intros H.
  inversion H as [|r0 s0 l0 vals0 H0 H']; subst.
  inversion H' as [|r1 s1 l1 vals1 H1 H'']; subst.
  inversion H'' as [|r2 s2 l2 vals2 H2 H''']; subst.
  cbn [nth].
  assert (0 < s0) by lra. assert (0 < s1) by lra. assert (0 < s2) by lra.
  apply Rmult_lt_0_compat; [apply Rmult_lt_0_compat|]; assumption.
Qed.

(** C4: the parameters of the random affine have all six shear ranges equal to
    zero and positive rotation, translation and scale ranges (three each); the
    pipeline applies them to the fixed and to the moving volume.  Every matrix
    drawn from them has zero shear coefficients, an identity shear factor, and
    is the product rotate * translate * scale; and the ground-truth transform
    of a sample whose two volumes were perturbed by such draws is
    [(R2 T2 S2)^-1 * (R1 T1 S1)], a composition of rotations, translations and
    scales only. *)
Theorem rand_affine_no_shear :
  shear_range rand_affine_params = [0; 0; 0; 0; 0; 0]
  /\ Forall (fun r => 0 < r)
       (rotate_range rand_affine_params ++ translate_range rand_affine_params
        ++ scale_range rand_affine_params)
  /\ (length (rotate_range rand_affine_params) = 3
      /\ length (translate_range rand_affine_params) = 3
      /\ length (scale_range rand_affine_params) = 3)%nat
  /\ rand_affine_steps transform
     = [(["fixed"%string], rand_affine_params); (["moving"%string], rand_affine_params)]
  /\ (forall dr, valid_draw rand_affine_params dr ->
        shear_params dr = [0; 0; 0; 0; 0; 0]
        /\ create_shear (shear_params dr) = eye 4
        /\ affine_of_draw dr = rotate_translate_scale dr)
  /\ (forall d dr1 dr2,
        valid_draw rand_affine_params dr1 -> valid_draw rand_affine_params dr2 ->
        recorded_affine (fixed_transforms d) = inr (affine_of_draw dr1) ->
        recorded_affine (moving_transforms d) = inr (affine_of_draw dr2) ->
        get_perfect_transform_monai_coords d
        = inr (mmul (inverse (rotate_translate_scale dr2))
                    (rotate_translate_scale dr1))).
Proof.
  assert (Hrts : forall dr, valid_draw rand_affine_params dr ->
            shear_params dr = [0; 0; 0; 0; 0; 0]
            /\ affine_of_draw dr = rotate_translate_scale dr).
  { intros dr (_ & Hs & _ & _).
    apply (drawn_from_zero 6) in Hs. simpl in Hs.
    split; [exact Hs|].
    unfold affine_of_draw, rotate_translate_scale. rewrite Hs.
    change (create_shear [0; 0; 0; 0; 0; 0]) with (eye 4).
    rewrite (mmul44_eye_r _ (create_rotate_is_mat _)). reflexivity. }
  split; [reflexivity|].
  split.
  { simpl. pose proof PI_RGT_0. unfold a, S.
    repeat constructor; lra. }
  split; [repeat split|].
  split; [reflexivity|].
  split.
  { intros dr Hdr. destruct (Hrts dr Hdr) as [Hs Ha].
    split; [exact Hs|]. split; [rewrite Hs; reflexivity | exact Ha]. }
  intros d dr1 dr2 Hdr1 Hdr2 H1 H2.
  destruct (Hrts dr1 Hdr1) as [_ Ha1]. destruct (Hrts dr2 Hdr2) as [_ Ha2].
  rewrite Ha1 in H1. rewrite Ha2 in H2.
  apply get_perfect_transform_monai_coords_eq; try assumption.
  - apply rotate_translate_scale_is_mat.
  - apply rotate_translate_scale_is_mat.
  - rewrite det_rotate_translate_scale.
    destruct Hdr2 as (_ & _ & _ & Hsc).
    pose proof (drawn_scales_positive _ Hsc). lra.
Qed.

Lemma example_draw_valid : valid_draw rand_affine_params example_draw.
Proof.
  pose proof PI2_1.
  unfold valid_draw, drawn_from. simpl. unfold a, S.
  repeat split; repeat (constructor; [split; lra|]); constructor.
Qed.

Lemma example_draw2_valid : valid_draw rand_affine_params example_draw2.
Proof.
  pose proof PI2_1.
  unfold valid_draw, drawn_from. simpl. unfold a, S.
  repeat split; repeat (constructor; [split; lra|]); constructor.
Qed.

Lemma rand_affine_no_shear_witness :
  valid_draw rand_affine_params example_draw
  /\ valid_draw rand_affine_params example_draw2
  /\ affine_of_draw example_draw = rotate_translate_scale example_draw
  /\ get_perfect_transform_monai_coords example_drawn_sample
     = inr (mmul (inverse (rotate_translate_scale example_draw2))
                 (rotate_translate_scale example_draw)).
Proof.
  split; [exact example_draw_valid|]. split; [exact example_draw2_valid|].
  destruct rand_affine_no_shear as (_ & _ & _ & _ & H & H').
  split.
  - exact (proj2 (proj2 (H example_draw example_draw_valid))).
  - apply (H' example_drawn_sample example_draw example_draw2
              example_draw_valid example_draw2_valid); reflexivity.
Defined.

(** ** AffineNet (cell 11) *)

(** *** Tensor operations and layer shapes on small inputs *)

Example view_infers_rows :
  view (mkTensor [2; 3; 4]%Z []) [-1; 12]%Z = inr (mkTensor [2; 12]%Z []).
Proof. reflexivity. Qed.

Example view_rejects_bad_size :
  view (mkTensor [2; 3; 4]%Z []) [-1; 5]%Z = inl RuntimeError.
Proof. reflexivity. Qed.

Example index_channels_small :
  index_channels (mkTensor [2; 2; 2]%Z [1; 2; 3; 4; 5; 6; 7; 8]) [1%nat]
  = inr (mkTensor [2; 1; 2]%Z [3; 4; 7; 8]).
Proof. reflexivity. Qed.

Example index_channels_out_of_range :
  index_channels (mkTensor [2; 1; 2]%Z [1; 2; 3; 4]) [1%nat] = inl IndexError.
Proof. reflexivity. Qed.

Example take_rows_small :
  take_rows 3 (mkTensor [1; 4; 2]%Z [1; 2; 3; 4; 5; 6; 7; 8])
  = inr (mkTensor [1; 3; 2]%Z [1; 2; 3; 4; 5; 6]).
Proof. reflexivity. Qed.

Example localization_shape_batch4 :
  Sequential_shape localization_layers [4; 2; 64; 64; 64]%Z
  = inr [4; 32; 12; 12; 12]%Z.
Proof. reflexivity. Qed.

Example localization_shape_size32 :
  Sequential_shape localization_layers [1; 2; 32; 32; 32]%Z
  = inr [1; 32; 4; 4; 4]%Z.
Proof. reflexivity. Qed.

Example localization_rejects_one_channel :
  Sequential_shape localization_layers [1; 1; 64; 64; 64]%Z = inl RuntimeError.
Proof. reflexivity. Qed.

Example linear_row_small :
  Linear_row {| in_features := 2; out_features := 2;
                weight := [[1; 2]; [3; 4]]; bias := [10; 20] |} [1; 1]
  = [1 * 1 + (1 * 2 + 0) + 10; 1 * 3 + (1 * 4 + 0) + 20].
Proof. reflexivity. Qed.

Lemma Sequential_forward_shape bk ls : forall i x,
  match Sequential_forward bk i ls x with
  | inl e => Sequential_shape ls (shape x) = inl e
  | inr xs => Sequential_shape ls (shape x) = inr (shape xs)
  end.
Proof.
  induction ls as [|l ls IH]; intros i x; simpl; [reflexivity|].
  destruct (layer_shape l (shape x)) as [e|sh]; simpl; [reflexivity|].
  apply (IH (Datatypes.S i) (mkTensor sh (layer_data bk i l x))).
Qed.

Lemma Sequential_forward_ok bk ls i x sh :
  Sequential_shape ls (shape x) = inr sh ->
  exists xs, Sequential_forward bk i ls x = inr xs /\ shape xs = sh.
Proof.
  intros H. pose proof (Sequential_forward_shape bk ls i x) as H'.
  destruct (Sequential_forward bk i ls x) as [e|xs]; rewrite H in H'.
  - discriminate.
  - exists xs. split; [reflexivity | congruence].
Qed.

Lemma AffineNet_init_fields w0 b0 :
  exists net, AffineNet_init w0 b0 = inr net
    /\ localization net
       = [Conv3d 2 8 5; MaxPool3d 2 2; BatchNorm3d 8; Dropout (2 / 10); PReLU;
          Conv3d 8 16 3; MaxPool3d 2 2; BatchNorm3d 16; Dropout (2 / 10); PReLU;
          Conv3d 16 32 3; BatchNorm3d 32; Dropout (2 / 10); PReLU]
    /\ loc_C3 net = 32%Z
    /\ S0 net = 12%Z
    /\ fc_loc net = [initial_fc w0 b0].
Proof.
  eexists. split; [reflexivity|]. repeat split.
Qed.

Lemma view_features t B :
  numel (shape t) = (B * 55296)%Z ->
  view t [-1; 32 * 12 ^ 3]%Z = inr (mkTensor [B; 55296%Z] (data t)).
Proof.
  intros H. unfold view. rewrite H.
  change (count_occ Z.eq_dec [-1; 32 * 12 ^ 3]%Z (-1)%Z) with 1%nat.
  change (numel (List.filter (fun d => negb (d =? -1)%Z) [-1; 32 * 12 ^ 3]%Z))
    with 55296%Z.
  rewrite Z.mod_mul, Z.div_mul by lia. reflexivity.
Qed.

Lemma view_theta t B :
  shape t = [B; 12%Z] ->
  view t [-1; 3; 4]%Z = inr (mkTensor [B; 3; 4]%Z (data t)).
Proof.
  intros H. unfold view. rewrite H.
  change (count_occ Z.eq_dec [-1; 3; 4]%Z (-1)%Z) with 1%nat.
  change (numel (List.filter (fun d => negb (d =? -1)%Z) [-1; 3; 4]%Z)) with 12%Z.
  replace (numel [B; 12%Z]) with (B * 12)%Z by (simpl; lia).
  rewrite Z.mod_mul, Z.div_mul by lia. reflexivity.
Qed.

Lemma Linear_forward_2d lin B n d :
  in_features lin = n ->
  Linear_forward lin (mkTensor [B; n] d)
  = inr (mkTensor [B; out_features lin]
          (concat (map (fun r => Linear_row lin (slice (r * Z.to_nat n) (Z.to_nat n) d))
                       (seq 0 (Z.to_nat B))))).
Proof.
  intros H. unfold Linear_forward. simpl rev. rewrite H, Z.eqb_refl.
  replace (numel [B]) with B by (simpl; lia). reflexivity.
Qed.

Lemma localization_shape B :
  Sequential_shape
    [Conv3d 2 8 5; MaxPool3d 2 2; BatchNorm3d 8; Dropout (2 / 10); PReLU;
     Conv3d 8 16 3; MaxPool3d 2 2; BatchNorm3d 16; Dropout (2 / 10); PReLU;
     Conv3d 16 32 3; BatchNorm3d 32; Dropout (2 / 10); PReLU]
    [B; 2; 64; 64; 64]%Z
  = inr [B; 32; 12; 12; 12]%Z.
Proof. reflexivity. Qed.

Lemma index_channels_moving x B D H W :
  shape x = [B; 2; D; H; W]%Z ->
  exists x1, index_channels x [1%nat] = inr x1 /\ shape x1 = [B; 1; D; H; W]%Z.
Proof.
  intros Hx. unfold index_channels. rewrite Hx.
  change (forallb (fun i => (Z.of_nat i <? 2)%Z) [1%nat]) with true.
  eexists. split; reflexivity.
Qed.

Lemma forward_factor bk net x :
  forward bk net x
  = do theta <- regress bk net x; do w <- resample bk x theta; ret (theta, w).
Proof.
  unfold forward, regress, resample.
  destruct (Sequential_forward bk 0 (localization net) x) as [e|xs]; simpl; [reflexivity|].
  destruct (assert_cond net xs); simpl; [|reflexivity].
  destruct (view xs _) as [e|xs2]; simpl; [reflexivity|].
  destruct (Linears_forward (fc_loc net) xs2) as [e|th]; simpl; [reflexivity|].
  destruct (view th _) as [e|theta]; simpl; [reflexivity|].
  destruct (affine_grid bk theta (shape x)) as [e|grid]; simpl; [reflexivity|].
  destruct (index_channels x [1%nat]) as [e|x1]; simpl; [reflexivity|].
  destruct (grid_sample bk x1 grid) as [e|w]; reflexivity.
Qed.

Lemma initial_fc_sizes w0 b0 :
  length (weight (initial_fc w0 b0)) = 12%nat /\ length (bias (initial_fc w0 b0)) = 12%nat.
Proof.
  split; [|reflexivity]. unfold initial_fc, zero_, Linear_new. cbn [weight].
  rewrite !length_map, length_seq. reflexivity.
Qed.

Lemma same_architecture_init w0 b0 net0 net :
  AffineNet_init w0 b0 = inr net0 -> same_architecture net net0 ->
  exists lin, has_architecture net lin.
Proof.
  intros Hinit (Hloc & HC & HS & Hfc).
  destruct (AffineNet_init_fields w0 b0) as (n & Hn & Hl & Hc3 & Hs0 & Hf).
  rewrite Hinit in Hn. injection Hn as <-.
  rewrite Hf in Hfc. inversion Hfc as [|lin l0 ls l0s Hsz Hrest]; subst.
  inversion Hrest; subst.
  destruct Hsz as (Hin & Hout & Hw & Hb).
  apply Forall2_length in Hw.
  destruct (initial_fc_sizes w0 b0) as [Hw0 Hb0].
  exists lin. unfold has_architecture.
  rewrite Hloc, HC, HS, Hl, Hc3, Hs0, Hin, Hout, Hw, Hb, Hw0, Hb0.
  repeat split. now symmetry.
Qed.

(** *** An input batch of shape (B, 2, 64, 64, 64) through a network of the
    architecture of [AffineNet.__init__] *)

Section OnBatchInput.
  Variable bk : backend.
  Variables (net : AffineNet) (lin : Linear) (x : tensor) (B : Z).
  Hypothesis Harch : has_architecture net lin.
  Hypothesis Hx : shape x = [B; 2; 64; 64; 64]%Z.

Lemma regress_ok :
  exists xs,
    Sequential_forward bk 0 (localization net) x = inr xs
    /\ shape xs = [B; 32; 12; 12; 12]%Z
    /\ assert_cond net xs = true
    /\ view xs [-1; loc_C3 net * S0 net ^ 3]%Z = inr (mkTensor [B; 55296%Z] (data xs))
    /\ Linears_forward (fc_loc net) (mkTensor [B; 55296%Z] (data xs))
       = inr (mkTensor [B; 12%Z] (theta_data lin B (data xs)))
    /\ regress bk net x = inr (mkTensor [B; 3; 4]%Z (theta_data lin B (data xs))).
Proof.
  destruct Harch as (Hloc & HC & HS & Hfc & Hin & Hout & _ & _).
  destruct (Sequential_forward_ok bk (localization net) 0 x [B; 32; 12; 12; 12]%Z)
    as (xs & Hxs & Hsh).
  { rewrite Hloc, Hx. apply localization_shape. }
  assert (Hassert : assert_cond net xs = true).
  { unfold assert_cond. rewrite Hsh, HS. reflexivity. }
  assert (Hview : view xs [-1; loc_C3 net * S0 net ^ 3]%Z
                  = inr (mkTensor [B; 55296%Z] (data xs))).
  { rewrite HC, HS. apply view_features. rewrite Hsh. simpl. lia. }
  assert (Hlin : Linears_forward (fc_loc net) (mkTensor [B; 55296%Z] (data xs))
                 = inr (mkTensor [B; 12%Z] (theta_data lin B (data xs)))).
  { rewrite Hfc. cbn [Linears_forward].
    rewrite (Linear_forward_2d lin B 55296 (data xs) Hin), Hout. reflexivity. }
  exists xs. repeat split; try assumption.
  unfold regress. rewrite Hxs. cbn [bind]. rewrite Hassert. cbn [negb].
  rewrite Hview. cbn [bind]. rewrite Hlin. cbn [bind].
  now apply view_theta.
Qed.

Lemma resample_ok theta :
  shape theta = [B; 3; 4]%Z ->
  exists x1,
    index_channels x [1%nat] = inr x1
    /\ shape x1 = [B; 1; 64; 64; 64]%Z
    /\ resample bk x theta
       = inr (mkTensor [B; 1; 64; 64; 64]%Z
                (grid_sample_data bk x1
                   (mkTensor [B; 64; 64; 64; 3]%Z (affine_grid_data bk theta (shape x))))).
Proof.
  intros Ht.
  destruct (index_channels_moving x B 64 64 64 Hx) as (x1 & Hx1 & Hs1).
  exists x1. repeat split; try assumption.
  unfold resample, affine_grid, affine_grid_shape. rewrite Ht, Hx.
  destruct (decide ([B; 3; 4]%Z = [B; 3; 4]%Z)) as [_|Hne]; [|contradiction].
  cbn [bind ret]. rewrite Hx1. cbn [bind].
  unfold grid_sample, grid_sample_shape. rewrite Hs1. cbn [shape].
  rewrite Z.eqb_refl. reflexivity.
Qed.

Lemma forward_ok :
  exists xs x1,
    Sequential_forward bk 0 (localization net) x = inr xs
    /\ index_channels x [1%nat] = inr x1
    /\ forward bk net x
       = inr (mkTensor [B; 3; 4]%Z (theta_data lin B (data xs)),
              mkTensor [B; 1; 64; 64; 64]%Z
                (grid_sample_data bk x1
                   (mkTensor [B; 64; 64; 64; 3]%Z
                      (affine_grid_data bk
                         (mkTensor [B; 3; 4]%Z (theta_data lin B (data xs)))
                         (shape x))))).
Proof.
  destruct regress_ok as (xs & Hxs & _ & _ & _ & _ & Hr).
  destruct (resample_ok (mkTensor [B; 3; 4]%Z (theta_data lin B (data xs))) eq_refl)
    as (x1 & Hx1 & _ & Hres).
  exists xs, x1. repeat split; try assumption.
  rewrite forward_factor, Hr. cbn [bind]. rewrite Hres. reflexivity.
Qed.

End OnBatchInput.

(** On volumes of another size the assertion of [forward] fails. *)
Example forward_asserts_on_size32 bk :
  forward bk example_net (zeros [1; 2; 32; 32; 32]%Z) = inl AssertionError.
Proof. reflexivity. Qed.

Lemma dot_zeros row (w : list R) : dot row (map (fun _ => 0) w) = 0.
Proof.
  unfold dot. revert w. induction row as [|x row IH]; intros [|y w]; simpl; try reflexivity.
  rewrite IH. ring.
Qed.

Lemma Linear_row_zero_weight lin row :
  Forall (Forall (fun v => v = 0)) (weight lin) ->
  length (weight lin) = length (bias lin) ->
  Linear_row lin row = bias lin.
Proof.
  unfold Linear_row. generalize (bias lin) as b. generalize (weight lin) as W.
  induction W as [|w W IH]; intros [|v b] HW Hlen; simpl in *; try discriminate.
  - reflexivity.
  - apply Forall_cons_iff in HW as [Hw HW]. f_equal.
    + replace w with (map (fun _ : R => 0) w).
      * rewrite dot_zeros. ring.
      * clear -Hw. induction Hw as [|y w Hy Hw IHw]; simpl; [reflexivity|].
        now rewrite IHw, Hy.
    + apply IH; [assumption | now injection Hlen].
Qed.

Lemma zero__all_zero W : Forall (Forall (fun v => v = 0)) (zero_ W).
Proof.
  unfold zero_. induction W as [|w W IH]; simpl; constructor; [|assumption].
  induction w; simpl; constructor; auto.
Qed.

Lemma map_const_seq {A} (v : A) n s : map (fun _ => v) (seq s n) = repeat v n.
Proof. revert s. induction n as [|n IH]; intros s; simpl; [reflexivity|]. now rewrite IH. Qed.

Lemma Linear_row_length lin row :
  length (weight lin) = 12%nat -> length (bias lin) = 12%nat ->
  length (Linear_row lin row) = 12%nat.
Proof.
  intros Hw Hb. unfold Linear_row. rewrite length_map, length_combine, Hw, Hb. reflexivity.
Qed.

Lemma AffineNet_init_architecture w0 b0 net :
  AffineNet_init w0 b0 = inr net -> has_architecture net (initial_fc w0 b0).
Proof.
  intros Hinit.
  destruct (AffineNet_init_fields w0 b0) as (n & Hn & Hl & Hc3 & Hs0 & Hf).
  rewrite Hinit in Hn. injection Hn as <-.
  destruct (initial_fc_sizes w0 b0) as [Hw0 Hb0].
  unfold has_architecture. rewrite Hl, Hc3, Hs0, Hf, Hw0, Hb0. repeat split.
Qed.

(** C9: for every network with the architecture built by [AffineNet.__init__]
    and every input of shape (B, 2, 64, 64, 64), the localization network
    returns a tensor of shape (B, 32, 12, 12, 12): its three spatial sizes are
    equal to [S0 = ((S-4)//2 - 2)//2 - 2 = 12], so the condition of the
    assertion in [forward] is true, [forward] does not raise AssertionError,
    and the flattening to rows of [loc_C3 * S0^3] features succeeds. *)
Theorem forward_assertion_holds bk w0 b0 net0 net x B :
  AffineNet_init w0 b0 = inr net0 -> same_architecture net net0 ->
  shape x = [B; 2; 64; 64; 64]%Z ->
  exists xs,
    Sequential_forward bk 0 (localization net) x = inr xs
    /\ shape xs = [B; loc_C3 net; S0 net; S0 net; S0 net]
    /\ S0 net = (((S - 4) / 2 - 2) / 2 - 2)%Z
    /\ S0 net = 12%Z
    /\ assert_cond net xs = true
    /\ forward bk net x <> inl AssertionError
    /\ view xs [-1; loc_C3 net * S0 net ^ 3]%Z
       = inr (mkTensor [B; loc_C3 net * S0 net ^ 3]%Z (data xs)).
Proof.
  intros Hinit Hsame Hx.
  destruct (same_architecture_init w0 b0 net0 net Hinit Hsame) as (lin & Harch).
  destruct (regress_ok bk net lin x B Harch Hx) as (xs & Hxs & Hsh & Hassert & Hview & _).
  destruct (forward_ok bk net lin x B Harch Hx) as (xs' & x1 & _ & _ & Hfw).
  destruct Harch as (_ & HC & HS & _).
  exists xs. rewrite Hfw, Hview, HC, HS.
  repeat split; try assumption; try reflexivity. discriminate.
Qed.

Lemma example_net_init : AffineNet_init (fun _ _ => 1) (fun _ => 1) = inr example_net.
Proof. reflexivity. Qed.

Lemma Forall2_map_rows (f : R -> R) (W : matrix) :
  Forall2 (fun r1 r2 => length r1 = length r2) (map (map f) W) W.
Proof.
  induction W as [|w W IH]; simpl; constructor; [apply length_map | assumption].
Qed.

Lemma example_same_architecture : same_architecture example_trained_net example_net.
Proof.
  repeat split. constructor; [|constructor].
  repeat split. apply Forall2_map_rows.
Qed.

Lemma example_input_shape : shape example_input = [1; 2; 64; 64; 64]%Z.
Proof. reflexivity. Qed.

Lemma forward_assertion_holds_witness :
  exists xs,
    Sequential_forward example_backend 0 (localization example_trained_net) example_input
    = inr xs
    /\ shape xs = [1; 32; 12; 12; 12]%Z
    /\ assert_cond example_trained_net xs = true
    /\ forward example_backend example_trained_net example_input <> inl AssertionError.
Proof.
  destruct (forward_assertion_holds example_backend (fun _ _ => 1) (fun _ => 1)
              example_net example_trained_net example_input 1
              example_net_init example_same_architecture example_input_shape)
    as (xs & H1 & H2 & _ & _ & H3 & H4 & _).
  exists xs. repeat split; assumption.
Defined.





Lemma Sequential_forward_same_layers bk bk' ls :
  same_layers bk bk' ->
  forall i x, Sequential_forward bk' i ls x = Sequential_forward bk i ls x.
Proof.
  intros Hsame. induction ls as [|l ls IH]; intros i x; simpl; [reflexivity|].
  destruct (layer_shape l (shape x)) as [e|sh]; simpl; [reflexivity|].
  now rewrite IH, Hsame.
Qed.

Lemma regress_same_layers bk bk' net x :
  same_layers bk bk' -> regress bk' net x = regress bk net x.
Proof.
  intros Hsame. unfold regress.
  now rewrite (Sequential_forward_same_layers bk bk' _ Hsame).
Qed.

Lemma resample_steps bk x theta w :
  resample bk x theta = inr w ->
  exists grid x1,
    affine_grid bk theta (shape x) = inr grid
    /\ data grid = affine_grid_data bk theta (shape x)
    /\ index_channels x [1%nat] = inr x1
    /\ grid_sample bk x1 grid = inr w
    /\ data w = grid_sample_data bk x1 grid.
Proof.
  unfold resample. intros H.
  apply bind_inr in H as (grid & Hg & H).
  apply bind_inr in H as (x1 & Hx1 & H).
  exists grid, x1. repeat split; try assumption.
  - unfold affine_grid in Hg. apply bind_inr in Hg as (sh & _ & Hg).
    injection Hg as <-. reflexivity.
  - unfold grid_sample in H. apply bind_inr in H as (sh & _ & H).
    injection H as <-. reflexivity.
Qed.

(** Whether the resampling succeeds, and the shape of its result, depend on
    shapes only. *)
Lemma resample_shape_only bk bk' x theta theta' :
  shape theta = shape theta' ->
  match resample bk x theta, resample bk' x theta' with
  | inl e, inl e' => e = e'
  | inr w, inr w' => shape w = shape w'
  | _, _ => False
  end.
Proof.
  intros Hsh. unfold resample, affine_grid. rewrite <- Hsh.
  destruct (affine_grid_shape (shape theta) (shape x)) as [e|sh]; simpl; [reflexivity|].
  destruct (index_channels x [1%nat]) as [e|x1]; simpl; [reflexivity|].
  unfold grid_sample. cbn [shape].
  destruct (grid_sample_shape (shape x1) sh) as [e|sh']; simpl; reflexivity.
Qed.

Lemma forward_theta_same_layers bk bk' net x :
  same_layers bk bk' ->
  fst_result (forward bk' net x) = fst_result (forward bk net x).
Proof.
  intros Hsame. rewrite !forward_factor, (regress_same_layers bk bk' net x Hsame).
  destruct (regress bk net x) as [e|theta]; simpl; [reflexivity|].
  pose proof (resample_shape_only bk bk' x theta theta eq_refl) as H.
  destruct (resample bk x theta), (resample bk' x theta); simpl;
    try contradiction; congruence.
Qed.

(** C6: on every input, [forward] is the regression of [theta] from the whole
    input followed by the resampling: if the regression raises, [forward]
    raises the same error; when [forward] returns [(theta, w)], [theta] is the
    result of the regression of this call, the sampling grid is built from
    this [theta] and the size of the input, and [w] is the moving channel
    resampled through this grid; and the regression does not depend on the
    sampling primitives. *)
Theorem forward_regress_then_resample bk net x :
  forward bk net x
  = (do theta <- regress bk net x; do w <- resample bk x theta; ret (theta, w))
  /\ (forall e, regress bk net x = inl e -> forward bk net x = inl e)
  /\ (forall theta w, forward bk net x = inr (theta, w) ->
        regress bk net x = inr theta
        /\ exists grid x1,
             affine_grid bk theta (shape x) = inr grid
             /\ data grid = affine_grid_data bk theta (shape x)
             /\ index_channels x [1%nat] = inr x1
             /\ grid_sample bk x1 grid = inr w
             /\ data w = grid_sample_data bk x1 grid)
  /\ (forall bk', same_layers bk bk' -> regress bk' net x = regress bk net x).
Proof.
  split; [apply forward_factor|].
  split.
  { intros e He. now rewrite forward_factor, He. }
  split.
  { intros theta w H. rewrite forward_factor in H.
    apply bind_inr in H as (theta' & Hr & H).
    apply bind_inr in H as (w' & Hw & H).
    injection H as <- <-. split; [exact Hr|].
    now apply resample_steps. }
  intros bk' Hsame. now apply regress_same_layers.
Qed.

Lemma forward_regress_then_resample_witness :
  exists theta w,
    forward example_backend example_net example_input = inr (theta, w)
    /\ regress example_backend example_net example_input = inr theta
    /\ resample example_backend example_input theta = inr w.
Proof.
  destruct (forward_ok example_backend example_net _ example_input 1
              (AffineNet_init_architecture _ _ _ example_net_init)
              example_input_shape) as (xs & x1 & _ & _ & Hfw).
  eexists _, _. split; [exact Hfw|].
  destruct (forward_regress_then_resample example_backend example_net example_input)
    as (_ & _ & H & _).
  destruct (H _ _ Hfw) as (Hr & grid & x1' & Hg & _ & Hx1 & Hs & _).
  split; [exact Hr|].
  unfold resample. rewrite Hg. cbn [bind]. rewrite Hx1. cbn [bind]. exact Hs.
Defined.

Lemma slice_second (V : nat) (f m rest : list R) :
  length f = V -> length m = V ->
  slice ((0 * 2 + 1) * V) V ((f ++ m) ++ rest) = m.
Proof.
  intros Hf Hm. unfold slice. replace ((0 * 2 + 1) * V)%nat with V by lia.
  rewrite <- app_assoc, (drop_app_length' f _ V) by (now symmetry).
  apply take_app_length'. now symmetry.
Qed.

Lemma slice_skip_pair (V b : nat) (f m rest : list R) :
  length f = V -> length m = V ->
  slice ((Datatypes.S b * 2 + 1) * V) V ((f ++ m) ++ rest)
  = slice ((b * 2 + 1) * V) V rest.
Proof.
  intros Hf Hm. unfold slice. f_equal.
  replace ((Datatypes.S b * 2 + 1) * V)%nat
    with (length (f ++ m) + (b * 2 + 1) * V)%nat
    by (rewrite length_app; lia).
  apply drop_app_add.
Qed.

(** Channel 1 of every pair [f ++ m] of a concatenation is its second half. *)
Lemma moving_slices (V : nat) (l : list (list R * list R)) :
  Forall (fun p => length (fst p) = V /\ length (snd p) = V) l ->
  map (fun b => slice ((b * 2 + 1) * V) V (concat (map (fun p => fst p ++ snd p) l)))
      (seq 0 (length l))
  = map snd l.
Proof.
  induction l as [|[f m] l IH]; intros H; [reflexivity|].
  apply Forall_cons_iff in H as [[Hf Hm] H]. simpl in Hf, Hm.
  cbn [length seq map concat fst snd]. f_equal.
  - now apply slice_second.
  - rewrite <- seq_shift, map_map. rewrite <- (IH H).
    apply map_ext. intros b. now apply slice_skip_pair.
Qed.

Lemma concatenated_fm D H W d :
  concatenated D H W d ->
  fm d = mkTensor [2; D; H; W]%Z (data (fixed d) ++ data (moving d)).
Proof.
  intros (Hf & Hm & _ & _ & Hc). unfold ConcatItemsD_apply, cat0 in Hc.
  rewrite Hf, Hm in Hc.
  destruct (decide ([D; H; W] = [D; H; W])) as [_|Hne]; [|contradiction].
  now injection Hc as <-.
Qed.

Lemma forallb_same_shape {A} (f : A -> tensor) (sh : list Z) (l : list A) :
  Forall (fun d => shape (f d) = sh) l ->
  forallb (fun t => bool_decide (shape t = sh)) (map f l) = true.
Proof.
  induction 1 as [|d l Hd Hl IH]; simpl; [reflexivity|].
  rewrite IH, Hd. now rewrite bool_decide_eq_true_2.
Qed.

Lemma stack_batch {A} (f : A -> tensor) (sh : list Z) (l : list A) :
  l <> [] -> Forall (fun d => shape (f d) = sh) l ->
  stack (map f l)
  = inr (mkTensor (Z.of_nat (length l) :: sh) (concat (map (fun d => data (f d)) l))).
Proof.
  intros Hne Hall. unfold stack. destruct l as [|d0 l]; [contradiction|].
  assert (H0 : shape (f d0) = sh) by (now apply Forall_cons_iff in Hall as [? _]).
  cbn [map]. rewrite H0.
  change (f d0 :: map f l) with (map f (d0 :: l)).
  rewrite (forallb_same_shape f sh (d0 :: l) Hall).
  now rewrite length_map, map_map.
Qed.

Lemma moving_channel_of_batch D H W (batch : list sample) x :
  batch <> [] -> Forall (concatenated D H W) batch ->
  stack (map fm batch) = inr x ->
  shape x = [Z.of_nat (length batch); 2; D; H; W]%Z
  /\ index_channels x [1%nat] = stack (map moving batch).
Proof.
  intros Hne Hall Hx.
  rewrite (stack_batch fm [2; D; H; W]%Z batch Hne) in Hx.
  2:{ eapply Forall_impl; [exact Hall|]. intros d Hd. simpl.
      now rewrite (concatenated_fm D H W d Hd). }
  injection Hx as <-. split; [reflexivity|].
  rewrite (stack_batch moving [1; D; H; W]%Z batch Hne).
  2:{ eapply Forall_impl; [exact Hall|]. now intros d (_ & Hm & _). }
  unfold index_channels. cbn [shape data].
  change (forallb (fun i => (Z.of_nat i <? 2)%Z) [1%nat]) with true. cbv iota.
  rewrite Nat2Z.id. change (Z.to_nat 2) with 2%nat.
  do 2 f_equal.
  set (V := Z.to_nat (numel [D; H; W])).
  replace (concat (map (fun d => data (fm d)) batch))
    with (concat (map (fun p => fst p ++ snd p)
                      (map (fun d => (data (fixed d), data (moving d))) batch))).
  2:{ rewrite map_map. f_equal. apply map_ext_Forall.
      eapply Forall_impl; [exact Hall|]. intros d Hd. simpl.
      now rewrite (concatenated_fm D H W d Hd). }
  f_equal.
  transitivity (map snd (map (fun d => (data (fixed d), data (moving d))) batch)).
  2:{ now rewrite map_map. }
  rewrite <- (moving_slices V).
  2:{ apply Forall_map. eapply Forall_impl; [exact Hall|].
      intros d (_ & _ & Hf & Hm & _). now split. }
  rewrite length_map. apply map_ext. intros b. cbn [map concat]. now rewrite app_nil_r.
Qed.

Lemma index_channels_shape x idxs x1 :
  index_channels x idxs = inr x1 ->
  exists B C rest, shape x = B :: C :: rest
                   /\ shape x1 = B :: Z.of_nat (length idxs) :: rest.
Proof.
  unfold index_channels. destruct (shape x) as [|B [|C rest]]; try discriminate.
  destruct (forallb _ idxs); [|discriminate].
  intros H. injection H as <-. now exists B, C, rest.
Qed.

Lemma grid_sample_channels bk x1 grid w B rest :
  shape x1 = B :: 1%Z :: rest ->
  grid_sample bk x1 grid = inr w ->
  nth 1 (shape w) 0%Z = 1%Z /\ w = mkTensor (shape w) (grid_sample_data bk x1 grid).
Proof.
  intros Hs H. unfold grid_sample in H. apply bind_inr in H as (sh & Hsh & H).
  injection H as <-. split; [|reflexivity]. cbn [shape].
  unfold grid_sample_shape in Hsh. rewrite Hs in Hsh.
  destruct rest as [|? [|? [|? [|? ?]]]]; try discriminate.
  destruct (shape grid) as [|? [|? [|? [|? [|? [|? ?]]]]]]; try discriminate.
  destruct (_ && _); [|discriminate]. now injection Hsh as <-.
Qed.

Lemma small_sample_concatenated f m : concatenated 1 1 2 (small_sample f m).
Proof. repeat split. Qed.

(** C7: the volume returned by [forward] is the result of [grid_sample] on
    [x[:, [1]]] alone and has a single channel; two inputs of the same shape
    with the same channel 1 and the same [theta] give the same warped volume,
    whatever their channel 0; and for a batch whose [fm] fields are the
    concatenation of the fixed volume followed by the moving volume,
    [x[:, [1]]] is exactly the stack of the moving volumes. *)
Theorem forward_warps_moving_only bk net :
  (forall x theta w, forward bk net x = inr (theta, w) ->
     exists x1 grid,
       index_channels x [1%nat] = inr x1
       /\ affine_grid bk theta (shape x) = inr grid
       /\ w = mkTensor (shape w) (grid_sample_data bk x1 grid)
       /\ nth 1 (shape w) 0%Z = 1%Z)
  /\ (forall x x' theta,
        shape x = shape x' ->
        index_channels x [1%nat] = index_channels x' [1%nat] ->
        resample bk x theta = resample bk x' theta)
  /\ (forall x x' theta w w',
        shape x = shape x' ->
        index_channels x [1%nat] = index_channels x' [1%nat] ->
        forward bk net x = inr (theta, w) ->
        forward bk net x' = inr (theta, w') ->
        w = w')
  /\ (forall D H W (batch : list sample) x,
        batch <> [] -> Forall (concatenated D H W) batch ->
        stack (map fm batch) = inr x ->
        index_channels x [1%nat] = stack (map moving batch)).
Proof.
  assert (Hres : forall x x' theta,
            shape x = shape x' ->
            index_channels x [1%nat] = index_channels x' [1%nat] ->
            resample bk x theta = resample bk x' theta).
  { intros x x' theta Hsh Hch. unfold resample. now rewrite Hsh, Hch. }
  assert (Hfw : forall x theta w, forward bk net x = inr (theta, w) ->
            resample bk x theta = inr w).
  { intros x theta w H. rewrite forward_factor in H.
    apply bind_inr in H as (theta' & _ & H).
    apply bind_inr in H as (w' & Hw & H). now injection H as <- <-. }
  split.
  { intros x theta w H. apply Hfw in H.
    destruct (resample_steps bk x theta w H) as (grid & x1 & Hg & _ & Hx1 & Hs & _).
    destruct (index_channels_shape x [1%nat] x1 Hx1) as (B & C & rest & _ & Hs1).
    destruct (grid_sample_channels bk x1 grid w B rest Hs1 Hs) as [Hc Hw].
    exists x1, grid. repeat split; assumption. }
  split; [exact Hres|].
  split.
  { intros x x' theta w w' Hsh Hch H H'.
    apply Hfw in H, H'. rewrite (Hres x x' theta Hsh Hch) in H. congruence. }
  intros D H W batch x Hne Hall Hx.
  now apply (moving_channel_of_batch D H W batch x).
Qed.

Lemma forward_warps_moving_only_witness :
  exists x,
    stack (map fm example_batch) = inr x
    /\ index_channels x [1%nat] = stack (map moving example_batch)
    /\ stack (map moving example_batch)
       = inr (mkTensor [2; 1; 1; 1; 2]%Z [10; 10 + 1; 30; 30 + 1]).
Proof.
  eexists. split; [reflexivity|]. split; [|reflexivity].
  destruct (forward_warps_moving_only example_backend example_net) as (_ & _ & _ & H).
  apply (H 1%Z 1%Z 2%Z example_batch).
  - discriminate.
  - repeat constructor.
  - reflexivity.
Defined.

(** ** The training loss (cell 20) *)

Lemma matmul_inr A B C :
  matmul A B = inr C -> C = mmul A B /\ ncols A = nrows B.
Proof.
  unfold matmul.
  destruct (rectangular A && rectangular B) eqn:Hr; simpl; [|discriminate].
  destruct (Nat.eqb_spec (ncols A) (nrows B)); [|discriminate].
  intros H. injection H as <-. now split.
Qed.

(** Whenever the conversion returns, its result is a 4x4 conjugate by [N]. *)
Lemma torch_coords_inr d p :
  get_perfect_transform_torch_coords d = inr p ->
  is_mat 4 4 p
  /\ exists theta, get_perfect_transform_monai_coords d = inr theta
                   /\ p = mmul N (mmul theta (inverse N)).
Proof.
  unfold get_perfect_transform_torch_coords. intros H.
  apply bind_inr in H as (theta & Ht & H).
  rewrite (linalg_inv44 N N_is_mat det_N_neq0) in H. simpl in H.
  apply bind_inr in H as (t & Hmm & H).
  apply matmul_inr in Hmm as [-> _].
  apply matmul_inr in H as [-> Hn].
  split; [|now exists theta].
  change (ncols N) with 4%nat in Hn. unfold nrows, mmul in Hn.
  rewrite length_map in Hn.
  destruct theta as [|r0 theta]; [discriminate|].
  assert (Hc : ncols (mmul (r0 :: theta) (inverse N)) = 4%nat).
  { unfold ncols, mmul. cbn [map hd]. rewrite length_map, length_seq.
    now destruct (is_mat44_shape _ (inverse44_is_mat N N_is_mat)) as (_ & -> & _). }
  remember (mmul (r0 :: theta) (inverse N)) as t eqn:Et.
  unfold is_mat, mmul. rewrite Hc. unfold N. split; [reflexivity|].
  repeat constructor.
Qed.

Lemma mapM_inr {A B} (f : A -> M B) (l : list A) (bs : list B) :
  mapM f l = inr bs -> Forall2 (fun x b => f x = inr b) l bs.
Proof.
  revert bs. induction l as [|x l IH]; simpl; intros bs H.
  - injection H as <-. constructor.
  - apply bind_inr in H as (b & Hb & H).
    apply bind_inr in H as (bs' & Hbs & H).
    injection H as <-. constructor; auto.
Qed.

Lemma Forall2_mapM {A B} (f : A -> M B) (l : list A) (bs : list B) :
  Forall2 (fun x b => f x = inr b) l bs -> mapM f l = inr bs.
Proof.
  induction 1 as [|x b l bs Hx _ IH]; simpl; [reflexivity|].
  now rewrite Hx, IH.
Qed.

Lemma rows3_slices (ps : list matrix) :
  Forall (is_mat 4 4) ps ->
  map (fun b => slice (b * 16) 12 (concat (map (@concat R) ps))) (seq 0 (length ps))
  = map (fun p => concat (firstn 3 p)) ps.
Proof.
  induction ps as [|p ps IH]; intros H; [reflexivity|].
  apply Forall_cons_iff in H as [Hp H].
  cbn [length seq map concat]. f_equal.
  - explicit44 p Hp. reflexivity.
  - rewrite <- seq_shift, map_map, <- (IH H). apply map_ext. intros b.
    unfold slice. f_equal.
    replace (Datatypes.S b * 16)%nat with (length (concat p) + b * 16)%nat.
    + apply drop_app_add.
    + explicit44 p Hp. simpl. lia.
Qed.

Lemma stack_matrices (ps : list matrix) :
  ps <> [] -> Forall (is_mat 4 4) ps ->
  stack (map tensor_of_matrix ps)
  = inr (mkTensor [Z.of_nat (length ps); 4; 4]%Z (concat (map (@concat R) ps))).
Proof.
  intros Hne Hall.
  rewrite (stack_batch tensor_of_matrix [4; 4]%Z ps Hne); [reflexivity|].
  eapply Forall_impl; [exact Hall|]. intros p Hp. explicit44 p Hp. reflexivity.
Qed.

Lemma take_rows_matrices (ps : list matrix) :
  Forall (is_mat 4 4) ps ->
  take_rows 3 (mkTensor [Z.of_nat (length ps); 4; 4]%Z (concat (map (@concat R) ps)))
  = inr (mkTensor [Z.of_nat (length ps); 3; 4]%Z
           (concat (map (fun p => concat (firstn 3 p)) ps))).
Proof.
  intros Hall. unfold take_rows. cbn [shape data].
  rewrite Nat2Z.id. rewrite <- (rows3_slices ps Hall). reflexivity.
Qed.

Lemma length_concat_const {A} (n : nat) (ls : list (list A)) :
  Forall (fun l => length l = n) ls -> length (concat ls) = (length ls * n)%nat.
Proof.
  induction 1 as [|l ls Hl _ IH]; simpl; [reflexivity|].
  rewrite length_app, IH, Hl. reflexivity.
Qed.

Lemma rsum_cons (x : R) (l : list R) : rsum (x :: l) = x + rsum l.
Proof. reflexivity. Qed.

Lemma rsum_sq_nonneg (l : list (R * R)) :
  0 <= rsum (map (fun p => (fst p - snd p) ^ 2) l).
Proof.
  induction l as [|[x y] l IH]; [simpl; lra|].
  cbn [map fst snd]. rewrite rsum_cons.
  pose proof (pow2_ge_0 (x - y)). lra.
Qed.

Lemma rsum_sq_zero (l1 l2 : list R) :
  length l1 = length l2 ->
  rsum (map (fun p => (fst p - snd p) ^ 2) (combine l1 l2)) = 0 <-> l1 = l2.
Proof.
  revert l2. induction l1 as [|x l1 IH]; intros [|y l2] Hlen; try discriminate.
  - simpl. tauto.
  - injection Hlen as Hlen. specialize (IH l2 Hlen).
    pose proof (rsum_sq_nonneg (combine l1 l2)) as Hn.
    cbn [combine map fst snd]. rewrite rsum_cons.
    pose proof (pow2_ge_0 (x - y)) as Hx.
    split.
    + intros H0.
      assert (Hsq : (x - y) ^ 2 = 0) by lra.
      assert (Hxy : x = y).
      { simpl in Hsq. assert (Hz : x - y = 0) by nra. lra. }
      f_equal; [exact Hxy|]. apply IH. lra.
    + intros H0. injection H0 as -> ->.
      rewrite (proj2 IH eq_refl). simpl. ring.
Qed.

(** C2: in a training step on a non-empty batch whose samples have a known
    perfect transform, the loss is the sum of the squared differences between
    the entries of the [theta] returned by [forward] and the entries of the
    first three rows of each sample's perfect transform in torch coordinates
    ([N * theta_monai * N^-1]); it is non-negative, it is zero exactly when
    [theta] equals these ground-truth rows, and it does not depend on the
    sampling grid or on the warped volume. *)
Theorem train_step_loss_is_regression bk w0 b0 net0 model
    (batch : list sample) (ps : list matrix) :
  AffineNet_init w0 b0 = inr net0 -> same_architecture model net0 ->
  batch <> [] ->
  Forall (fun d => shape (fm d) = [2; 64; 64; 64]%Z) batch ->
  mapM get_perfect_transform_torch_coords batch = inr ps ->
  exists x theta w,
    stack (map fm batch) = inr x
    /\ forward bk model x = inr (theta, w)
    /\ shape theta = [Z.of_nat (length batch); 3; 4]%Z
    /\ Forall2 (fun d p =>
                  exists th, get_perfect_transform_monai_coords d = inr th
                             /\ p = mmul N (mmul th (inverse N)))
               batch ps
    /\ (let perfect := concat (map (fun p => concat (firstn 3 p)) ps) in
        train_step_loss bk model batch
        = inr (rsum (map (fun q => (fst q - snd q) ^ 2)
                         (combine (data theta) perfect)))
        /\ length (data theta) = length perfect
        /\ (forall loss, train_step_loss bk model batch = inr loss ->
               0 <= loss /\ (loss = 0 <-> data theta = perfect)))
    /\ (forall bk', same_layers bk bk' ->
          train_step_loss bk' model batch = train_step_loss bk model batch).
Proof.
  intros Hinit Hsame Hne Hfm Hps.
  destruct (same_architecture_init w0 b0 net0 model Hinit Hsame) as (lin & Harch).
  pose proof (stack_batch fm [2; 64; 64; 64]%Z batch Hne Hfm) as Hx.
  set (x := mkTensor (Z.of_nat (length batch) :: [2; 64; 64; 64]%Z)
                     (concat (map (fun d => data (fm d)) batch))) in *.
  destruct (forward_ok bk model lin x (Z.of_nat (length batch)) Harch eq_refl)
    as (xs & x1 & _ & _ & Hfw).
  set (theta := mkTensor [Z.of_nat (length batch); 3; 4]%Z
                  (theta_data lin (Z.of_nat (length batch)) (data xs))) in *.
  pose proof (mapM_inr _ _ _ Hps) as Hall2.
  assert (Hlen : length ps = length batch) by (symmetry; eapply Forall2_length; eauto).
  assert (Hmat : Forall (is_mat 4 4) ps).
  { clear -Hall2. induction Hall2 as [|d p l l' Hd _ IH]; constructor; [|exact IH].
    now apply torch_coords_inr in Hd as [? _]. }
  assert (Hpne : ps <> []) by (intros ->; destruct batch; [contradiction|discriminate]).
  set (perfect := concat (map (fun p => concat (firstn 3 p)) ps)).
  assert (Hstep : forall bk' w', forward bk' model x = inr (theta, w') ->
            train_step_loss bk' model batch
            = inr (rsum (map (fun q => (fst q - snd q) ^ 2)
                             (combine (data theta) perfect)))).
  { intros bk' w' Hfw'. unfold train_step_loss.
    rewrite Hx. cbn [bind]. rewrite Hfw'. cbn [bind fst]. rewrite Hps. cbn [bind].
    rewrite (stack_matrices ps Hpne Hmat). cbn [bind].
    rewrite (take_rows_matrices ps Hmat). cbn [bind].
    unfold sum_sq_diff. cbn [shape data]. rewrite Hlen.
    destruct (decide _) as [_|Hn]; [reflexivity | contradiction]. }
  assert (Hlens : length (data theta) = length perfect).
  { unfold theta, theta_data, perfect. cbn [data].
    rewrite (length_concat_const 12).
    2:{ apply Forall_map. apply List.Forall_forall. intros r _.
        destruct Harch as (_ & _ & _ & _ & _ & _ & Hw & Hb).
        now apply Linear_row_length. }
    rewrite (length_concat_const 12).
    2:{ apply Forall_map. eapply Forall_impl; [exact Hmat|].
        intros p Hp. explicit44 p Hp. reflexivity. }
    rewrite !length_map, length_seq, Nat2Z.id. f_equal. symmetry. exact Hlen. }
  eexists x, theta, _. split; [exact Hx|]. split; [exact Hfw|].
  split; [reflexivity|]. split.
  { clear -Hall2. induction Hall2 as [|d p l l' Hd _ IH]; constructor; [|exact IH].
    now apply torch_coords_inr in Hd as [_ ?]. }
  split.
  { cbv zeta. fold perfect. split; [now apply (Hstep bk _ Hfw)|].
    split; [exact Hlens|].
    intros loss Hloss. rewrite (Hstep bk _ Hfw) in Hloss. injection Hloss as <-.
    split; [apply rsum_sq_nonneg | now apply rsum_sq_zero]. }
  intros bk' Hsame'.
  pose proof (forward_theta_same_layers bk bk' model x Hsame') as Hfst.
  rewrite Hfw in Hfst. cbn [fst_result fst] in Hfst.
  destruct (forward bk' model x) as [e|[theta' w']] eqn:Hfw'; [discriminate|].
  cbn [fst_result fst] in Hfst. injection Hfst as ->.
  now rewrite (Hstep bk' w' Hfw'), (Hstep bk _ Hfw).
Qed.

Lemma example_torch_coords :
  get_perfect_transform_torch_coords example_sample
  = inr (mmul N (mmul (mmul (inverse example_phi2) example_phi1) (inverse N))).
Proof.
  apply torch_coords_of_monai.
  - apply mmul44_is_mat; [apply inverse44_is_mat, example_phi2_is_mat|].
    apply example_phi1_is_mat.
  - apply get_perfect_transform_monai_coords_eq; try reflexivity.
    + apply example_phi1_is_mat.
    + apply example_phi2_is_mat.
    + apply example_phi2_det.
Qed.

Lemma train_step_loss_is_regression_witness :
  exists loss,
    train_step_loss example_backend example_trained_net [example_sample; example_sample]
    = inr loss /\ 0 <= loss.
Proof.
  destruct (train_step_loss_is_regression example_backend (fun _ _ => 1) (fun _ => 1)
              example_net example_trained_net [example_sample; example_sample]
              (repeat (mmul N (mmul (mmul (inverse example_phi2) example_phi1)
                                    (inverse N))) 2)
              example_net_init example_same_architecture)
    as (x & theta & w & _ & _ & _ & _ & (Hl & _ & Hpos) & _).
  - discriminate.
  - repeat constructor.
  - apply Forall2_mapM. repeat constructor; apply example_torch_coords.
  - eexists. split; [exact Hl|]. now apply (Hpos _ Hl).
Defined.

(** ** Saving the model (cell 22) *)

Example save_path_run_id : save_path run_id = "model_002.pth"%string.
Proof. reflexivity. Qed.

Example save_model_fresh :
  save_model "003" [1; 2] {[ "model_002.pth"%string := [7] ]}
  = (inr tt, <[ "model_003.pth"%string := [1; 2] ]> {[ "model_002.pth"%string := [7] ]}).
Proof. reflexivity. Qed.

(** C10: if a file named [model_{run_id}.pth] exists, the saving cell raises
    its exception and leaves the file system as it was; in every case every
    file that existed before the cell keeps its content, and whenever the cell
    raises the file system is unchanged; the state is written only when no
    such file existed. *)
Theorem save_model_never_overwrites (rid : string) (state_dict : list R)
    (fs : gmap string (list R)) :
  (forall c, fs !! save_path rid = Some c ->
     save_model rid state_dict fs
     = (inl (Exception "change run_id before saving"), fs))
  /\ (forall p c, fs !! p = Some c ->
        snd (save_model rid state_dict fs) !! p = Some c)
  /\ (forall e, fst (save_model rid state_dict fs) = inl e ->
        snd (save_model rid state_dict fs) = fs)
  /\ (fs !! save_path rid = None ->
        save_model rid state_dict fs
        = (inr tt, <[save_path rid := state_dict]> fs)).
Proof.
  unfold save_model. repeat split.
  - intros c Hc. now rewrite Hc.
  - intros p c Hp. destruct (fs !! save_path rid) as [c'|] eqn:Hpath; simpl.
    + exact Hp.
    + rewrite lookup_insert_ne; [exact Hp|]. intros <-. congruence.
  - intros e. destruct (fs !! save_path rid); simpl; [reflexivity | discriminate].
  - intros Hnone. now rewrite Hnone.
Qed.

Lemma save_model_never_overwrites_witness :
  save_path run_id = "model_002.pth"%string
  /\ save_model run_id [1; 2] {[ "model_002.pth"%string := [7] ]}
     = (inl (Exception "change run_id before saving"),
        {[ "model_002.pth"%string := [7] ]}).
Proof.
  split; [reflexivity|].
  destruct (save_model_never_overwrites run_id [1; 2]
              {[ "model_002.pth"%string := [7] ]}) as (H & _).
  apply (H [7]). apply lookup_singleton_eq.
Defined.
(** * Further properties *)

(** ** The perfect transform: explicit form, affinity, symmetry *)

Lemma conjugation_explicit a00 a01 a02 a03 a10 a11 a12 a13
                           a20 a21 a22 a23 a30 a31 a32 a33 :
  mmul N (mmul (mat44 a00 a01 a02 a03 a10 a11 a12 a13
                      a20 a21 a22 a23 a30 a31 a32 a33) (inverse N))
  = mat44 a22 a21 a20 (2 / 63 * a23)
          a12 a11 a10 (2 / 63 * a13)
          a02 a01 a00 (2 / 63 * a03)
          (63 / 2 * a32) (63 / 2 * a31) (63 / 2 * a30) a33.
Proof.
  rewrite inverse_N. unfold N. rewrite S_minus_1. mat_simp. list_eq; field.
Qed.

(** X1: entry by entry, the conversion to torch coordinates reverses the order
    of the rows and of the columns of the 3x3 block, reverses the translation
    column and multiplies it by [2/(S-1)]. *)
Theorem perfect_transform_torch_coords_entries (d : sample)
    a00 a01 a02 a03 a10 a11 a12 a13 a20 a21 a22 a23 a30 a31 a32 a33 :
  get_perfect_transform_monai_coords d
  = inr (mat44 a00 a01 a02 a03 a10 a11 a12 a13 a20 a21 a22 a23 a30 a31 a32 a33) ->
  get_perfect_transform_torch_coords d
  = inr (mat44 a22 a21 a20 (2 / IZR (S - 1) * a23)
               a12 a11 a10 (2 / IZR (S - 1) * a13)
               a02 a01 a00 (2 / IZR (S - 1) * a03)
               (IZR (S - 1) / 2 * a32) (IZR (S - 1) / 2 * a31)
               (IZR (S - 1) / 2 * a30) a33).
Proof.
  intros H. rewrite S_minus_1, <- conjugation_explicit.
  apply torch_coords_of_monai; [apply mat44_is_mat | exact H].
Qed.

Lemma is_affine_explicit A :
  is_affine A ->
  exists a00 a01 a02 a03 a10 a11 a12 a13 a20 a21 a22 a23,
    A = mat44 a00 a01 a02 a03 a10 a11 a12 a13 a20 a21 a22 a23 0 0 0 1.
Proof.
  intros [HA Hrow]. explicit44 A HA. simpl in Hrow. injection Hrow as -> -> -> ->.
  repeat eexists.
Qed.

Lemma mat44_affine a00 a01 a02 a03 a10 a11 a12 a13 a20 a21 a22 a23 :
  is_affine (mat44 a00 a01 a02 a03 a10 a11 a12 a13 a20 a21 a22 a23 0 0 0 1).
Proof. split; [apply mat44_is_mat | reflexivity]. Qed.

Lemma mmul_affine A B : is_affine A -> is_affine B -> is_affine (mmul A B).
Proof.
  intros HA HB.
  destruct (is_affine_explicit A HA)
    as (a00&a01&a02&a03&a10&a11&a12&a13&a20&a21&a22&a23&->).
  destruct (is_affine_explicit B HB)
    as (b00&b01&b02&b03&b10&b11&b12&b13&b20&b21&b22&b23&->).
  split; [apply mat44_is_mat|]. mat_simp. list_eq; ring.
Qed.

Lemma inverse_affine A : is_affine A -> det A <> 0 -> is_affine (inverse A).
Proof.
  intros HA Hd.
  destruct (is_affine_explicit A HA)
    as (a00&a01&a02&a03&a10&a11&a12&a13&a20&a21&a22&a23&->).
  split; [apply mat44_is_mat|].
  unfold inverse. remember (det _) as D eqn:HD. mat_simp_in HD.
  mat_simp. unfold Rdiv. list_eq; inv_entry HD Hd.
Qed.

Lemma conjugation_affine A : is_affine A -> is_affine (mmul N (mmul A (inverse N))).
Proof.
  intros HA.
  destruct (is_affine_explicit A HA)
    as (a00&a01&a02&a03&a10&a11&a12&a13&a20&a21&a22&a23&->).
  rewrite conjugation_explicit. split; [apply mat44_is_mat|].
  mat_simp. list_eq; ring.
Qed.

Lemma create_rotate_affine rad : is_affine (create_rotate rad).
Proof.
  unfold create_rotate.
  apply mmul_affine; [apply mmul_affine|]; apply mat44_affine.
Qed.

Lemma affine_of_draw_affine dr : is_affine (affine_of_draw dr).
Proof.
  unfold affine_of_draw.
  apply mmul_affine; [apply mmul_affine; [apply mmul_affine|]|];
    try apply create_rotate_affine; apply mat44_affine.
Qed.

Lemma affine_last_row p : is_affine p -> p = firstn 3 p ++ [[0; 0; 0; 1]].
Proof.
  intros Hp.
  destruct (is_affine_explicit p Hp)
    as (a00&a01&a02&a03&a10&a11&a12&a13&a20&a21&a22&a23&->).
  reflexivity.
Qed.

(** X2: the comment of the training loop, "the last row is always 0,0,0,1":
    when the two recorded matrices are affine (last row 0,0,0,1) and the
    moving one is invertible, the perfect transform is affine in both
    coordinate systems, so the three rows kept by [[:, :3]] determine it. *)
Theorem perfect_transform_last_row (d : sample) (phi1 phi2 : matrix) :
  recorded_affine (fixed_transforms d) = inr phi1 ->
  recorded_affine (moving_transforms d) = inr phi2 ->
  is_affine phi1 -> is_affine phi2 -> det phi2 <> 0 ->
  exists theta p,
    get_perfect_transform_monai_coords d = inr theta
    /\ is_affine theta
    /\ get_perfect_transform_torch_coords d = inr p
    /\ nth 3 p [] = [0; 0; 0; 1]
    /\ p = firstn 3 p ++ [[0; 0; 0; 1]].
Proof.
  intros H1 H2 Ha1 Ha2 Hd.
  assert (Hth : is_affine (mmul (inverse phi2) phi1))
    by (apply mmul_affine; [now apply inverse_affine | exact Ha1]).
  pose proof (conjugation_affine _ Hth) as Hp.
  exists (mmul (inverse phi2) phi1), (mmul N (mmul (mmul (inverse phi2) phi1) (inverse N))).
  assert (Hm : get_perfect_transform_monai_coords d = inr (mmul (inverse phi2) phi1))
    by (apply get_perfect_transform_monai_coords_eq; try assumption;
        [apply Ha1 | apply Ha2]).
  split; [exact Hm|]. split; [exact Hth|].
  split; [apply torch_coords_of_monai; [apply Hth | exact Hm]|].
  split; [apply Hp | now apply affine_last_row].
Qed.

Lemma valid_draw_no_shear dr :
  valid_draw rand_affine_params dr -> affine_of_draw dr = rotate_translate_scale dr.
Proof.
  intros (_ & Hs & _ & _).
  apply (drawn_from_zero 6) in Hs. simpl in Hs.
  unfold affine_of_draw, rotate_translate_scale. rewrite Hs.
  change (create_shear [0; 0; 0; 0; 0; 0]) with (eye 4).
  rewrite (mmul44_eye_r _ (create_rotate_is_mat _)). reflexivity.
Qed.

Lemma drawn_scales_bounds (vals : list R) :
  drawn_from (scale_range rand_affine_params) 1 vals ->
  exists s0 s1 s2, vals = [s0; s1; s2]
    /\ 94 / 100 <= s0 <= 106 / 100
    /\ 94 / 100 <= s1 <= 106 / 100
    /\ 94 / 100 <= s2 <= 106 / 100.
Proof.
  unfold drawn_from. cbn [scale_range rand_affine_params repeat]. unfold a.
  intros H.
  inversion H as [|r0 s0 l0 vals0 H0 Ha]; subst.
  inversion Ha as [|r1 s1 l1 vals1 H1 Hb]; subst.
  inversion Hb as [|r2 s2 l2 vals2 H2 Hc]; subst.
  inversion Hc; subst.
  exists s0, s1, s2. repeat split; lra.
Qed.

Lemma valid_draw_det_neq0 dr :
  valid_draw rand_affine_params dr -> det (affine_of_draw dr) <> 0.
Proof.
  intros Hv. rewrite (valid_draw_no_shear dr Hv), det_rotate_translate_scale.
  destruct Hv as (_ & _ & _ & Hsc).
  pose proof (drawn_scales_positive _ Hsc). lra.
Qed.

(** X3: every matrix the random affine can draw has the product of its three
    scale factors as determinant, between 0.94^3 and 1.06^3: the synthetic
    perturbations are invertible, keep the orientation and change volumes by
    less than 20 percent. *)
Theorem drawn_affine_det (dr : affine_draw) :
  valid_draw rand_affine_params dr ->
  det (affine_of_draw dr)
  = nth 0 (scale_params dr) 1 * nth 1 (scale_params dr) 1 * nth 2 (scale_params dr) 1
  /\ (94 / 100) ^ 3 <= det (affine_of_draw dr) <= (106 / 100) ^ 3
  /\ det (affine_of_draw dr) <> 0.
Proof.
  intros Hdr. rewrite (valid_draw_no_shear dr Hdr), det_rotate_translate_scale.
  destruct Hdr as (_ & _ & _ & Hsc).
  destruct (drawn_scales_bounds _ Hsc) as (s0 & s1 & s2 & -> & H0 & H1 & H2).
  cbn [nth].
  assert (Hlo : 94 / 100 * (94 / 100) <= s0 * s1) by nra.
  assert (Hhi : s0 * s1 <= 106 / 100 * (106 / 100)) by nra.
  assert (Hlo3 : 94 / 100 * (94 / 100) * (94 / 100) <= s0 * s1 * s2) by nra.
  assert (Hhi3 : s0 * s1 * s2 <= 106 / 100 * (106 / 100) * (106 / 100)) by nra.
  split; [reflexivity|]. split; [simpl; lra | lra].
Qed.

Lemma drawn_affine_det_witness :
  (94 / 100) ^ 3 <= det (affine_of_draw example_draw) <= (106 / 100) ^ 3.
Proof.
  exact (proj1 (proj2 (drawn_affine_det example_draw example_draw_valid))).
Defined.

Lemma perfect_transform_last_row_witness :
  exists p,
    get_perfect_transform_torch_coords example_drawn_sample = inr p
    /\ nth 3 p [] = [0; 0; 0; 1].
Proof.
  destruct (perfect_transform_last_row example_drawn_sample
              (affine_of_draw example_draw) (affine_of_draw example_draw2)
              eq_refl eq_refl
              (affine_of_draw_affine _) (affine_of_draw_affine _)
              (valid_draw_det_neq0 _ example_draw2_valid))
    as (theta & p & _ & _ & Hp & Hrow & _).
  exists p. split; assumption.
Defined.

Lemma example_monai_explicit :
  get_perfect_transform_monai_coords example_sample
  = inr (mat44 (1 / 2) 0 0 (1 / 2)  0 1 0 2  0 0 (1 / 4) (3 / 4)  0 0 0 1).
Proof.
  rewrite (get_perfect_transform_monai_coords_eq example_sample example_phi1 example_phi2
             eq_refl eq_refl example_phi1_is_mat example_phi2_is_mat example_phi2_det).
  f_equal. unfold inverse. rewrite det_example_phi2.
  unfold example_phi1, example_phi2, create_translate, create_scale.
  mat_simp. list_eq; field.
Qed.

Lemma perfect_transform_torch_coords_entries_witness :
  get_perfect_transform_torch_coords example_sample
  = inr (mat44 (1 / 4) 0 0 (2 / IZR (S - 1) * (3 / 4))
               0 1 0 (2 / IZR (S - 1) * 2)
               0 0 (1 / 2) (2 / IZR (S - 1) * (1 / 2))
               (IZR (S - 1) / 2 * 0) (IZR (S - 1) / 2 * 0) (IZR (S - 1) / 2 * 0) 1).
Proof.
  exact (perfect_transform_torch_coords_entries example_sample _ _ _ _ _ _ _ _
           _ _ _ _ _ _ _ _ example_monai_explicit).
Defined.

Lemma conjugation_eye : mmul N (mmul (eye 4) (inverse N)) = eye 4.
Proof.
  rewrite mmul44_eye_l by (apply inverse44_is_mat, N_is_mat).
  apply (inverse44_r N N_is_mat det_N_neq0).
Qed.

Lemma same_perturbation_example :
  get_perfect_transform_torch_coords same_perturbation_sample = inr (eye 4).
Proof.
  rewrite <- conjugation_eye. apply torch_coords_of_monai; [apply mat44_is_mat|].
  rewrite <- (inverse44_l (affine_of_draw example_draw)).
  - apply get_perfect_transform_monai_coords_eq; try reflexivity;
      try apply affine_of_draw_affine.
    apply valid_draw_det_neq0, example_draw_valid.
  - apply affine_of_draw_affine.
  - apply valid_draw_det_neq0, example_draw_valid.
Qed.

(** X4: when the two volumes of a sample were perturbed by the same invertible
    matrix, the perfect transform is the identity in both coordinate systems. *)
Theorem perfect_transform_same_perturbation (d : sample) (phi : matrix) :
  recorded_affine (fixed_transforms d) = inr phi ->
  recorded_affine (moving_transforms d) = inr phi ->
  is_mat 4 4 phi -> det phi <> 0 ->
  get_perfect_transform_monai_coords d = inr (eye 4)
  /\ get_perfect_transform_torch_coords d = inr (eye 4).
Proof.
  intros H1 H2 Hm Hd.
  assert (Hmonai : get_perfect_transform_monai_coords d = inr (eye 4)).
  { rewrite (get_perfect_transform_monai_coords_eq d phi phi H1 H2 Hm Hm Hd).
    now rewrite inverse44_l. }
  split; [exact Hmonai|].
  rewrite (torch_coords_of_monai d (eye 4)); [|apply mat44_is_mat | exact Hmonai].
  now rewrite conjugation_eye.
Qed.

Lemma perfect_transform_same_perturbation_witness :
  get_perfect_transform_torch_coords same_perturbation_sample = inr (eye 4).
Proof.
  apply (perfect_transform_same_perturbation same_perturbation_sample
           (affine_of_draw example_draw) eq_refl eq_refl).
  - apply affine_of_draw_affine.
  - apply valid_draw_det_neq0, example_draw_valid.
Defined.

Lemma conjugation_mmul A B :
  is_mat 4 4 A -> is_mat 4 4 B ->
  mmul (mmul N (mmul A (inverse N))) (mmul N (mmul B (inverse N)))
  = mmul N (mmul (mmul A B) (inverse N)).
Proof.
  intros HA HB. explicit44 A HA. explicit44 B HB.
  change (mmul (mat44 A00 A01 A02 A03 A10 A11 A12 A13 A20 A21 A22 A23 A30 A31 A32 A33)
               (mat44 B00 B01 B02 B03 B10 B11 B12 B13 B20 B21 B22 B23 B30 B31 B32 B33))
    with (mat44
      (A00 * B00 + (A01 * B10 + (A02 * B20 + (A03 * B30 + 0))))
      (A00 * B01 + (A01 * B11 + (A02 * B21 + (A03 * B31 + 0))))
      (A00 * B02 + (A01 * B12 + (A02 * B22 + (A03 * B32 + 0))))
      (A00 * B03 + (A01 * B13 + (A02 * B23 + (A03 * B33 + 0))))
      (A10 * B00 + (A11 * B10 + (A12 * B20 + (A13 * B30 + 0))))
      (A10 * B01 + (A11 * B11 + (A12 * B21 + (A13 * B31 + 0))))
      (A10 * B02 + (A11 * B12 + (A12 * B22 + (A13 * B32 + 0))))
      (A10 * B03 + (A11 * B13 + (A12 * B23 + (A13 * B33 + 0))))
      (A20 * B00 + (A21 * B10 + (A22 * B20 + (A23 * B30 + 0))))
      (A20 * B01 + (A21 * B11 + (A22 * B21 + (A23 * B31 + 0))))
      (A20 * B02 + (A21 * B12 + (A22 * B22 + (A23 * B32 + 0))))
      (A20 * B03 + (A21 * B13 + (A22 * B23 + (A23 * B33 + 0))))
      (A30 * B00 + (A31 * B10 + (A32 * B20 + (A33 * B30 + 0))))
      (A30 * B01 + (A31 * B11 + (A32 * B21 + (A33 * B31 + 0))))
      (A30 * B02 + (A31 * B12 + (A32 * B22 + (A33 * B32 + 0))))
      (A30 * B03 + (A31 * B13 + (A32 * B23 + (A33 * B33 + 0))))).
  rewrite !conjugation_explicit. mat_simp. list_eq; field.
Qed.

Lemma unconjugation A :
  is_mat 4 4 A -> mmul (inverse N) (mmul (mmul N (mmul A (inverse N))) N) = A.
Proof.
  intros HA. explicit44 A HA. rewrite conjugation_explicit, inverse_N.
  unfold N. rewrite S_minus_1. mat_simp. list_eq; field.
Qed.

(** X5: the conversion to torch coordinates loses nothing: the transform in the
    augmentation framework's coordinates is [N^-1 * p * N] for the converted
    [p], so two samples with the same converted transform have the same
    transform. *)
Theorem perfect_transform_torch_coords_invertible (d1 d2 : sample) (theta1 theta2 : matrix) :
  is_mat 4 4 theta1 -> is_mat 4 4 theta2 ->
  get_perfect_transform_monai_coords d1 = inr theta1 ->
  get_perfect_transform_monai_coords d2 = inr theta2 ->
  (exists p, get_perfect_transform_torch_coords d1 = inr p
             /\ theta1 = mmul (inverse N) (mmul p N))
  /\ (get_perfect_transform_torch_coords d1 = get_perfect_transform_torch_coords d2 ->
      theta1 = theta2).
Proof.
  intros Hm1 Hm2 H1 H2.
  pose proof (torch_coords_of_monai d1 theta1 Hm1 H1) as Hp1.
  pose proof (torch_coords_of_monai d2 theta2 Hm2 H2) as Hp2.
  split.
  - eexists. split; [exact Hp1|]. symmetry. now apply unconjugation.
  - rewrite Hp1, Hp2. intros Heq.
    apply (f_equal (fun m : M matrix => match m with inr p => p | inl _ => [] end)) in Heq.
    rewrite <- (unconjugation theta1 Hm1), <- (unconjugation theta2 Hm2).
    now rewrite Heq.
Qed.

Lemma example_monai_drawn :
  get_perfect_transform_monai_coords example_drawn_sample
  = inr (mmul (inverse (affine_of_draw example_draw2)) (affine_of_draw example_draw)).
Proof.
  apply get_perfect_transform_monai_coords_eq; try reflexivity.
  - apply affine_of_draw_affine.
  - apply affine_of_draw_affine.
  - apply valid_draw_det_neq0, example_draw2_valid.
Qed.

Lemma perfect_transform_torch_coords_invertible_witness :
  exists p,
    get_perfect_transform_torch_coords example_sample = inr p
    /\ mat44 (1 / 2) 0 0 (1 / 2)  0 1 0 2  0 0 (1 / 4) (3 / 4)  0 0 0 1
       = mmul (inverse N) (mmul p N).
Proof.
  apply (perfect_transform_torch_coords_invertible example_sample example_drawn_sample
           _ (mmul (inverse (affine_of_draw example_draw2)) (affine_of_draw example_draw))).
  - apply mat44_is_mat.
  - apply mmul44_is_mat; [apply inverse44_is_mat|]; apply affine_of_draw_affine.
  - exact example_monai_explicit.
  - exact example_monai_drawn.
Defined.

(** X6: exchanging the roles of the two volumes inverts the perfect transform,
    in both coordinate systems. *)
Theorem perfect_transform_swap (d d' : sample) (phi1 phi2 : matrix) :
  recorded_affine (fixed_transforms d) = inr phi1 ->
  recorded_affine (moving_transforms d) = inr phi2 ->
  recorded_affine (fixed_transforms d') = inr phi2 ->
  recorded_affine (moving_transforms d') = inr phi1 ->
  is_mat 4 4 phi1 -> is_mat 4 4 phi2 -> det phi1 <> 0 -> det phi2 <> 0 ->
  exists X Y P Q,
    get_perfect_transform_monai_coords d = inr X
    /\ get_perfect_transform_monai_coords d' = inr Y
    /\ mmul X Y = eye 4 /\ mmul Y X = eye 4
    /\ get_perfect_transform_torch_coords d = inr P
    /\ get_perfect_transform_torch_coords d' = inr Q
    /\ mmul P Q = eye 4 /\ mmul Q P = eye 4.
Proof.
  intros H1 H2 H1' H2' Hm1 Hm2 Hd1 Hd2.
  pose proof (inverse44_is_mat _ Hm1) as Hi1.
  pose proof (inverse44_is_mat _ Hm2) as Hi2.
  assert (HX : is_mat 4 4 (mmul (inverse phi2) phi1)) by now apply mmul44_is_mat.
  assert (HY : is_mat 4 4 (mmul (inverse phi1) phi2)) by now apply mmul44_is_mat.
  assert (Hinv : forall A B, is_mat 4 4 A -> is_mat 4 4 B -> det A <> 0 -> det B <> 0 ->
            mmul (mmul (inverse B) A) (mmul (inverse A) B) = eye 4).
  { intros A B HA HB HdA HdB.
    pose proof (inverse44_is_mat _ HA). pose proof (inverse44_is_mat _ HB).
    rewrite mmul44_assoc by (try apply mmul44_is_mat; assumption).
    rewrite <- (mmul44_assoc A) by assumption.
    rewrite inverse44_r, mmul44_eye_l by assumption.
    now apply inverse44_l. }
  assert (Hconj1 : mmul N (mmul (eye 4) (inverse N)) = eye 4).
  { rewrite mmul44_eye_l by (apply inverse44_is_mat, N_is_mat).
    apply (inverse44_r N N_is_mat det_N_neq0). }
  pose proof (get_perfect_transform_monai_coords_eq d phi1 phi2 H1 H2 Hm1 Hm2 Hd2) as HmX.
  pose proof (get_perfect_transform_monai_coords_eq d' phi2 phi1 H1' H2' Hm2 Hm1 Hd1) as HmY.
  eexists _, _, _, _.
  split; [exact HmX|]. split; [exact HmY|].
  split; [now apply Hinv|]. split; [now apply Hinv|].
  split; [exact (torch_coords_of_monai d _ HX HmX)|].
  split; [exact (torch_coords_of_monai d' _ HY HmY)|].
  rewrite !conjugation_mmul by assumption.
  rewrite !Hinv by assumption. split; exact Hconj1.
Qed.

Lemma perfect_transform_swap_witness :
  exists P Q,
    get_perfect_transform_torch_coords example_drawn_sample = inr P
    /\ get_perfect_transform_torch_coords example_drawn_sample_swapped = inr Q
    /\ mmul P Q = eye 4.
Proof.
  destruct (perfect_transform_swap example_drawn_sample example_drawn_sample_swapped
              (affine_of_draw example_draw) (affine_of_draw example_draw2)
              eq_refl eq_refl eq_refl eq_refl
              (proj1 (affine_of_draw_affine _)) (proj1 (affine_of_draw_affine _))
              (valid_draw_det_neq0 _ example_draw_valid)
              (valid_draw_det_neq0 _ example_draw2_valid))
    as (X & Y & P & Q & _ & _ & _ & _ & HP & HQ & HPQ & _).
  exists P, Q. repeat split; assumption.
Defined.

(** ** The perfect transform: errors *)

Lemma recorded_affine_none ts :
  Forall (fun t => class t <> "RandAffined"%string) ts ->
  recorded_affine ts = inl IndexError.
Proof.
  unfold recorded_affine. induction 1 as [|t ts Ht _ IH]; simpl; [reflexivity|].
  destruct (String.eqb_spec (class t) "RandAffined"); [contradiction | exact IH].
Qed.

(** X7: a sample without a RandAffined record for its fixed volume, or with
    one for the fixed volume and none for the moving volume, makes both
    functions raise IndexError. *)
Theorem perfect_transform_missing_record (d : sample) :
  Forall (fun t => class t <> "RandAffined"%string) (fixed_transforms d)
  \/ ((exists phi1, recorded_affine (fixed_transforms d) = inr phi1)
      /\ Forall (fun t => class t <> "RandAffined"%string) (moving_transforms d)) ->
  get_perfect_transform_monai_coords d = inl IndexError
  /\ get_perfect_transform_torch_coords d = inl IndexError.
Proof.
  intros H.
  assert (Hm : get_perfect_transform_monai_coords d = inl IndexError).
  { unfold get_perfect_transform_monai_coords.
    destruct H as [H | [[phi1 H1] H2]].
    - now rewrite (recorded_affine_none _ H).
    - now rewrite H1, (recorded_affine_none _ H2). }
  split; [exact Hm|].
  unfold get_perfect_transform_torch_coords. now rewrite Hm.
Qed.

Lemma perfect_transform_missing_record_witness :
  get_perfect_transform_torch_coords (small_sample 1 10) = inl IndexError.
Proof.
  apply (perfect_transform_missing_record (small_sample 1 10)).
  left. constructor.
Defined.

(** X8: the record that counts is the first one of class RandAffined; when it
    has no 'affine' entry both functions raise KeyError, whatever the later
    records hold. *)
Theorem perfect_transform_missing_affine (d : sample) pre t post :
  fixed_transforms d = pre ++ t :: post ->
  Forall (fun t' => class t' <> "RandAffined"%string) pre ->
  class t = "RandAffined"%string ->
  extra_info t !! "affine"%string = None ->
  get_perfect_transform_monai_coords d = inl KeyError
  /\ get_perfect_transform_torch_coords d = inl KeyError.
Proof.
  intros Hd Hpre Hc Hnone.
  assert (Hr : recorded_affine (fixed_transforms d) = inl KeyError).
  { rewrite Hd. unfold recorded_affine. clear Hd.
    induction pre as [|p pre IH]; simpl.
    - rewrite Hc. simpl. now rewrite Hnone.
    - apply Forall_cons_iff in Hpre as [Hp Hpre].
      destruct (String.eqb_spec (class p) "RandAffined"); [contradiction|].
      now apply IH. }
  assert (Hm : get_perfect_transform_monai_coords d = inl KeyError).
  { unfold get_perfect_transform_monai_coords. now rewrite Hr. }
  split; [exact Hm|].
  unfold get_perfect_transform_torch_coords. now rewrite Hm.
Qed.

Lemma perfect_transform_missing_affine_witness :
  get_perfect_transform_monai_coords sample_without_affine = inl KeyError.
Proof.
  apply (perfect_transform_missing_affine sample_without_affine
           [ {| class := "Resized"; extra_info := ∅ |} ]
           {| class := "RandAffined"; extra_info := {[ "other"%string := eye 4 ]} |}
           [RandAffined_record example_draw]).
  - reflexivity.
  - repeat constructor. discriminate.
  - reflexivity.
  - reflexivity.
Defined.



(** X10: records of other classes before the RandAffined one are skipped and
    records after it are ignored: the perfect transform is built from the
    first RandAffined record of each list. *)
Theorem perfect_transform_first_record (d : sample)
    pre1 t1 post1 pre2 t2 post2 (phi1 phi2 : matrix) :
  fixed_transforms d = pre1 ++ t1 :: post1 ->
  moving_transforms d = pre2 ++ t2 :: post2 ->
  Forall (fun t => class t <> "RandAffined"%string) pre1 ->
  Forall (fun t => class t <> "RandAffined"%string) pre2 ->
  class t1 = "RandAffined"%string -> class t2 = "RandAffined"%string ->
  extra_info t1 !! "affine"%string = Some phi1 ->
  extra_info t2 !! "affine"%string = Some phi2 ->
  is_mat 4 4 phi1 -> is_mat 4 4 phi2 -> det phi2 <> 0 ->
  get_perfect_transform_monai_coords d = inr (mmul (inverse phi2) phi1).
Proof.
  intros Hd1 Hd2 Hp1 Hp2 Hc1 Hc2 Ha1 Ha2 Hm1 Hm2 Hdet.
  apply get_perfect_transform_monai_coords_eq; try assumption.
  - rewrite Hd1. now apply recorded_affine_first.
  - rewrite Hd2. now apply recorded_affine_first.
Qed.

Lemma perfect_transform_first_record_witness :
  get_perfect_transform_monai_coords sample_with_two_records
  = inr (mmul (inverse (affine_of_draw example_draw2)) (affine_of_draw example_draw)).
Proof.
  apply (perfect_transform_first_record sample_with_two_records
           [ {| class := "Resized"; extra_info := ∅ |} ]
           (RandAffined_record example_draw) [RandAffined_record example_draw2]
           [] (RandAffined_record example_draw2)
           [ {| class := "RandAffined"; extra_info := ∅ |} ]).
  - reflexivity.
  - reflexivity.
  - repeat constructor. discriminate.
  - constructor.
  - reflexivity.
  - reflexivity.
  - reflexivity.
  - reflexivity.
  - apply affine_of_draw_affine.
  - apply affine_of_draw_affine.
  - apply valid_draw_det_neq0, example_draw2_valid.
Defined.
(** ** AffineNet: which inputs [forward] accepts *)





Section OnAnyInput.
  Variable bk : backend.
  Variables (net : AffineNet) (lin : Linear) (x : tensor).
  Hypothesis Harch : has_architecture net lin.




End OnAnyInput.





(** X13: for one sample whose [fm] field is the concatenation of its fixed and
    moving volumes of 64^3 voxels (cells 13 and 24), the model returns one
    3x4 matrix and a warped volume of the shape of [d['fixed'].unsqueeze(0)],
    so the two can be compared voxel by voxel. *)
Theorem model_on_sample_shapes bk w0 b0 net0 net (d : sample) :
  AffineNet_init w0 b0 = inr net0 -> same_architecture net net0 ->
  concatenated 64 64 64 d ->
  exists theta warped,
    model_on_sample bk net d = inr (theta, warped)
    /\ shape theta = [1; 3; 4]%Z
    /\ shape warped = shape (unsqueeze0 (fixed d))
    /\ shape warped = shape (unsqueeze0 (moving d)).
Proof.
  intros Hinit Hsame Hc.
  destruct (same_architecture_init w0 b0 net0 net Hinit Hsame) as (lin & Harch).
  pose proof (concatenated_fm 64 64 64 d Hc) as Hfm.
  destruct Hc as (Hf & Hm & _).
  unfold model_on_sample.
  destruct (forward_ok bk net lin (unsqueeze0 (fm d)) 1 Harch) as (xs & x1 & _ & _ & Hfw).
  { unfold unsqueeze0. cbn [shape]. now rewrite Hfm. }
  eexists _, _. split; [exact Hfw|]. split; [reflexivity|].
  unfold unsqueeze0. cbn [shape]. rewrite Hf, Hm. split; reflexivity.
Qed.
(** ** Saving and loading (cells 22 and 23) *)

Lemma string_length_append (s t : string) :
  String.length (s ++ t)%string = (String.length s + String.length t)%nat.
Proof. induction s as [|c s IH]; simpl; [reflexivity | now rewrite IH]. Qed.

Lemma string_append_inj_l (s1 s2 t : string) :
  (s1 ++ t = s2 ++ t)%string -> s1 = s2.
Proof.
  revert s2. induction s1 as [|c s1 IH]; intros [|c2 s2] H; simpl in H.
  - reflexivity.
  - apply (f_equal String.length) in H.
    rewrite !string_length_append in H. simpl in H. lia.
  - apply (f_equal String.length) in H.
    rewrite !string_length_append in H. simpl in H. lia.
  - injection H as -> H. f_equal. now apply IH.
Qed.

Lemma save_path_inj r1 r2 : save_path r1 = save_path r2 -> r1 = r2.
Proof.
  unfold save_path. intros H. simpl in H. injection H as H.
  now apply (string_append_inj_l r1 r2 ".pth").
Qed.

(** X14: a state saved under a run id is read back by the loading cell run with
    the same id; loading under another id is not affected by the save. *)
Theorem save_then_load (rid : string) (state_dict : list R)
    (fs fs' : gmap string (list R)) :
  save_model rid state_dict fs = (inr tt, fs') ->
  load_model rid (save_path rid) fs' = inr state_dict
  /\ (forall rid', rid' <> rid ->
        load_model rid' (save_path rid) fs'
        = match fs !! save_path rid' with
          | Some old => inr old
          | None => inl (FileNotFoundError (save_path rid'))
          end).
Proof.
  unfold save_model. destruct (fs !! save_path rid) eqn:Hp; [discriminate|].
  intros H. injection H as <-.
  assert (Hl : <[save_path rid := state_dict]> fs !! save_path rid = Some state_dict)
    by apply lookup_insert_eq.
  split.
  - unfold load_model. fold (save_path rid). now rewrite Hl.
  - intros rid' Hne. unfold load_model. fold (save_path rid'). rewrite Hl.
    rewrite lookup_insert_ne; [reflexivity|].
    intros Heq. apply Hne. symmetry. now apply save_path_inj.
Qed.

Lemma save_then_load_witness :
  load_model "002" (save_path "002") (<[ "model_002.pth"%string := [1; 2] ]> ∅)
  = inr [1; 2].
Proof.
  apply (save_then_load "002" [1; 2] ∅ (<[ "model_002.pth"%string := [1; 2] ]> ∅)).
  reflexivity.
Defined.


(** X16: the two cells as the notebook chains them, saving under '002' and then
    loading under '001': after a successful save the guard always passes, and
    what is loaded is what 'model_001.pth' held before the save, or
    FileNotFoundError; it does not depend on the state just saved. *)
Theorem save_002_then_load_001 (state_dict : list R) (fs fs' : gmap string (list R)) :
  save_model run_id state_dict fs = (inr tt, fs') ->
  load_model "001" (save_path run_id) fs'
  = match fs !! "model_001.pth"%string with
    | Some old => inr old
    | None => inl (FileNotFoundError "model_001.pth")
    end.
Proof.
  unfold save_model, run_id.
  change (save_path "002") with "model_002.pth"%string.
  destruct (fs !! "model_002.pth"%string) eqn:Hp; [discriminate|].
  intros H. injection H as <-.
  unfold load_model. cbn [String.append].
  rewrite lookup_insert_eq. now rewrite lookup_insert_ne.
Qed.

Lemma save_002_then_load_001_witness :
  load_model "001" (save_path run_id) (<[ "model_002.pth"%string := [1; 2] ]> ∅)
  = inl (FileNotFoundError "model_001.pth").
Proof.
  assert (Hsave : save_model run_id [1; 2] ∅
                  = (inr tt, <[ "model_002.pth"%string := [1; 2] ]> ∅))
    by (unfold save_model; rewrite lookup_empty; reflexivity).
  rewrite (save_002_then_load_001 [1; 2] ∅ _ Hsave).
  rewrite lookup_empty. reflexivity.
Defined.
(** ** The pairs of volumes (cell 5) *)

Lemma length_flat_map_map {A B C} (g : A -> B -> C) (outer : list A) (inner : list B) :
  length (flat_map (fun x => map (g x) inner) outer)
  = (length outer * length inner)%nat.
Proof.
  induction outer as [|p outer IH]; simpl; [reflexivity|].
  now rewrite length_app, length_map, IH.
Qed.

(** X17: the pairs are all the ordered pairs of paths: a pair is listed exactly
    when both its paths are in the list, so every volume is also paired with
    itself, and n paths give n * n pairs. *)
Theorem data_pairs_all_ordered_pairs (image_paths : list string) :
  (forall f m, In {| fixed_path := f; moving_path := m |} (data_pairs image_paths)
               <-> In f image_paths /\ In m image_paths)
  /\ (forall p, In p image_paths ->
        In {| fixed_path := p; moving_path := p |} (data_pairs image_paths))
  /\ length (data_pairs image_paths)
     = (length image_paths * length image_paths)%nat.
Proof.
  assert (Hiff : forall f m,
            In {| fixed_path := f; moving_path := m |} (data_pairs image_paths)
            <-> In f image_paths /\ In m image_paths).
  { intros f m. unfold data_pairs. rewrite in_flat_map. split.
    - intros (img0 & H0 & Hin). apply in_map_iff in Hin as (img1 & Heq & H1).
      injection Heq as <- <-. now split.
    - intros [Hf Hm]. exists f. split; [exact Hf|].
      apply in_map_iff. now exists m. }
  split; [exact Hiff|]. split.
  - intros p Hp. now apply Hiff.
  - unfold data_pairs.
    apply (length_flat_map_map
             (fun img0 img1 => {| fixed_path := img0; moving_path := img1 |})).
Qed.
(** ** The training loop (cell 20) *)

Lemma mapM_ok {A B} (f : A -> M B) (l : list A) :
  Forall (fun x => exists b, f x = inr b) l -> exists bs, mapM f l = inr bs.
Proof.
  induction 1 as [|x l [b Hb] _ [bs IH]]; simpl.
  - now exists [].
  - exists (b :: bs). now rewrite Hb, IH.
Qed.

Lemma train_step_loss_value bk model lin (batch : list sample) (ps : list matrix) :
  has_architecture model lin -> batch <> [] ->
  Forall (fun d => shape (fm d) = [2; 64; 64; 64]%Z) batch ->
  mapM get_perfect_transform_torch_coords batch = inr ps ->
  exists xs,
    train_step_loss bk model batch
    = inr (rsum (map (fun q => (fst q - snd q) ^ 2)
                     (combine (theta_data lin (Z.of_nat (length batch)) (data xs))
                              (concat (map (fun p => concat (firstn 3 p)) ps))))).
Proof.
  intros Harch Hne Hfm Hps.
  pose proof (stack_batch fm [2; 64; 64; 64]%Z batch Hne Hfm) as Hx.
  destruct (forward_ok bk model lin
              (mkTensor (Z.of_nat (length batch) :: [2; 64; 64; 64]%Z)
                        (concat (map (fun d => data (fm d)) batch)))
              (Z.of_nat (length batch)) Harch eq_refl)
    as (xs & x1 & _ & _ & Hfw).
  pose proof (mapM_inr _ _ _ Hps) as Hall2.
  assert (Hlen : length ps = length batch) by (symmetry; eapply Forall2_length; eauto).
  assert (Hmat : Forall (is_mat 4 4) ps).
  { clear -Hall2. induction Hall2 as [|d p l l' Hd _ IH]; constructor; [|exact IH].
    now apply torch_coords_inr in Hd as [? _]. }
  assert (Hpne : ps <> []) by (intros ->; destruct batch; [contradiction|discriminate]).
  exists xs. unfold train_step_loss.
  rewrite Hx. cbn [bind]. rewrite Hfw. cbn [bind fst]. rewrite Hps. cbn [bind].
  rewrite (stack_matrices ps Hpne Hmat). cbn [bind].
  rewrite (take_rows_matrices ps Hmat). cbn [bind].
  unfold sum_sq_diff. cbn [shape data]. rewrite Hlen.
  destruct (decide _) as [_|Hn]; [reflexivity | contradiction].
Qed.

Lemma train_step_loss_ok bk model (batch : list sample) :
  has_some_architecture model -> well_formed_batch batch ->
  exists loss, train_step_loss bk model batch = inr loss /\ 0 <= loss.
Proof.
  intros [lin Harch] [Hne Hall].
  assert (Hfm : Forall (fun d => shape (fm d) = [2; 64; 64; 64]%Z) batch)
    by (eapply Forall_impl; [exact Hall|]; now intros d [? _]).
  destruct (mapM_ok get_perfect_transform_torch_coords batch) as [ps Hps].
  { eapply Forall_impl; [exact Hall|]. now intros d [_ ?]. }
  destruct (train_step_loss_value bk model lin batch ps Harch Hne Hfm Hps) as [xs ->].
  eexists. split; [reflexivity | apply rsum_sq_nonneg].
Qed.

Lemma has_some_architecture_same net net' :
  has_some_architecture net -> same_architecture net' net ->
  has_some_architecture net'.
Proof.
  intros (lin & Hl & Hc3 & Hs0 & Hf & Hin & Hout & Hw & Hb) (Hloc & HC & HS & Hfc).
  rewrite Hf in Hfc. inversion Hfc as [|lin' l0 ls l0s Hsz Hrest]; subst.
  inversion Hrest; subst.
  destruct Hsz as (Hin' & Hout' & Hw' & Hb'). apply Forall2_length in Hw'.
  exists lin'. unfold has_architecture.
  rewrite Hloc, HC, HS, Hl, Hc3, Hs0, Hin', Hout', Hw', Hb', Hin, Hout, Hw, Hb.
  repeat split. now symmetry.
Qed.

Section Loop.
  Variable bk : backend.
  Variable tr : trainer.

Lemma epoch_batches_firstn (batches : list (list sample)) :
  forall n st losses,
    epoch_batches bk tr n batches st losses
    = epoch_batches bk tr n (firstn (batches_per_epoch - n) batches) st losses.
Proof.
  unfold batches_per_epoch.
  induction batches as [|b rest IH]; intros n st losses.
  - now rewrite firstn_nil.
  - cbn [epoch_batches]. unfold batches_per_epoch.
    destruct (Nat.leb_spec 20 n) as [Hge|Hlt].
    + replace (20 - n)%nat with 0%nat by lia. reflexivity.
    + replace (20 - n)%nat with (Datatypes.S (20 - Datatypes.S n)) by lia.
      cbn [firstn epoch_batches]. unfold batches_per_epoch.
      destruct (Nat.leb_spec 20 n) as [Hge|_]; [lia|].
      destruct (train_step_loss bk (model_of tr st) b) as [e|loss]; cbn [bind];
        [reflexivity|].
      apply IH.
Qed.

Lemma epoch_batches_losses (batches : list (list sample)) :
  forall n st losses st' losses',
    epoch_batches bk tr n batches st losses = inr (st', losses') ->
    exists ls, losses' = losses ++ ls
               /\ length ls = Nat.min (batches_per_epoch - n) (length batches).
Proof.
  unfold batches_per_epoch.
  induction batches as [|b rest IH]; intros n st losses st' losses' H.
  - injection H as <- <-. exists []. split; [now rewrite app_nil_r|].
    now rewrite Nat.min_0_r.
  - cbn [epoch_batches] in H. unfold batches_per_epoch in H.
    destruct (Nat.leb_spec 20 n) as [Hge|Hlt].
    + injection H as <- <-. exists []. split; [now rewrite app_nil_r|].
      replace (20 - n)%nat with 0%nat by lia. reflexivity.
    + apply bind_inr in H as (loss & _ & H).
      apply IH in H as (ls & -> & Hlen).
      exists (loss :: ls). split; [now rewrite <- app_assoc|].
      cbn [length]. rewrite Hlen. lia.
Qed.

  Hypothesis Hkeeps : keeps_architecture tr.

Lemma epoch_batches_ok (batches : list (list sample)) :
  forall n st losses,
    has_some_architecture (model_of tr st) ->
    Forall well_formed_batch batches ->
    exists st' ls,
      epoch_batches bk tr n batches st losses = inr (st', losses ++ ls)
      /\ length ls = Nat.min (batches_per_epoch - n) (length batches)
      /\ Forall (fun l => 0 <= l) ls
      /\ has_some_architecture (model_of tr st').
Proof.
  unfold batches_per_epoch.
  induction batches as [|b rest IH]; intros n st losses Harch Hall.
  - exists st, []. rewrite app_nil_r, Nat.min_0_r. repeat split; [constructor | exact Harch].
  - apply Forall_cons_iff in Hall as [Hb Hall].
    cbn [epoch_batches]. unfold batches_per_epoch.
    destruct (Nat.leb_spec 20 n) as [Hge|Hlt].
    + exists st, []. rewrite app_nil_r.
      replace (20 - n)%nat with 0%nat by lia.
      repeat split; [constructor | exact Harch].
    + destruct (train_step_loss_ok bk (model_of tr st) b Harch Hb) as (loss & -> & Hpos).
      cbn [bind].
      destruct (IH (Datatypes.S n) (opt_step tr st b) (losses ++ [loss]))
        as (st' & ls & Hrun & Hlen & Hnn & Harch').
      { eapply has_some_architecture_same; [exact Harch | apply Hkeeps]. }
      { exact Hall. }
      exists st', (loss :: ls). rewrite Hrun, <- app_assoc.
      repeat split; [cbn [length]; rewrite Hlen; lia | now constructor | exact Harch'].
Qed.

End Loop.

Lemma np_mean_nonneg (ls : list R) :
  ls <> [] -> Forall (fun l => 0 <= l) ls -> exists v, np_mean ls = Some v /\ 0 <= v.
Proof.
  intros Hne Hall. destruct ls as [|l ls]; [contradiction|].
  eexists. split; [reflexivity|].
  assert (Hsum : 0 <= rsum (l :: ls)).
  { clear Hne. induction Hall as [|y ys Hy _ IH]; [simpl; lra|].
    rewrite rsum_cons. lra. }
  assert (Hlen : 0 < INR (length (l :: ls))) by (apply lt_0_INR; simpl; lia).
  apply Rmult_le_pos; [exact Hsum|]. left. now apply Rinv_0_lt_compat.
Qed.

Lemma epochs_loop_ok bk tr (loader : nat -> list (list sample)) :
  keeps_architecture tr ->
  (forall epoch, Forall well_formed_batch (loader epoch)) ->
  forall epochs st losses_to_plot,
    has_some_architecture (model_of tr st) ->
    exists st' means,
      epochs_loop bk tr epochs loader st [] losses_to_plot
      = inr (st', [], losses_to_plot ++ means)
      /\ Forall2 (epoch_entry loader) epochs means
      /\ has_some_architecture (model_of tr st').
Proof.
  intros Hkeeps Hload.
  induction epochs as [|epoch rest IH]; intros st ltp Harch.
  - exists st, []. rewrite app_nil_r. repeat split; [constructor | exact Harch].
  - cbn [epochs_loop].
    destruct (epoch_batches_ok bk tr Hkeeps (loader epoch) 0 st [] Harch (Hload epoch))
      as (st1 & ls & -> & Hlen & Hnn & Harch1).
    cbn [bind fst snd app]. unfold print_loss_every. rewrite Nat.mod_1_r. cbn [Nat.eqb].
    destruct (IH st1 (ltp ++ [np_mean ls]) Harch1) as (st' & means & -> & Hall & Harch').
    exists st', (np_mean ls :: means). rewrite <- app_assoc.
    repeat split; [|exact Harch'].
    constructor; [|exact Hall]. split.
    + intros Hempty. rewrite Hempty in Hlen. rewrite Nat.min_0_r in Hlen.
      destruct ls; [reflexivity | discriminate].
    + intros Hne. apply np_mean_nonneg; [|exact Hnn].
      intros ->. unfold batches_per_epoch in Hlen. cbn [length] in Hlen.
      destruct (loader epoch); [contradiction | simpl in Hlen; lia].
Qed.

(** X18: in one epoch the inner loop runs the training step on the first
    [batches_per_epoch] = 20 batches only: the result is the same as on the
    list cut after 20 batches, and when it returns it has added
    min(20, number of batches) losses after those it was given. *)
Theorem epoch_batches_first_20 bk tr (batches : list (list sample)) st losses :
  epoch_batches bk tr 0 batches st losses
  = epoch_batches bk tr 0 (firstn 20 batches) st losses
  /\ (forall st' losses',
        epoch_batches bk tr 0 batches st losses = inr (st', losses') ->
        exists ls, losses' = losses ++ ls
                   /\ length ls = Nat.min 20 (length batches)).
Proof.
  split.
  - apply (epoch_batches_firstn bk tr batches 0).
  - intros st' losses' H. apply (epoch_batches_losses bk tr batches 0 st losses st' losses' H).
Qed.

(** X19: if the optimizer step changes parameter values only, the model starts
    with the architecture of [AffineNet.__init__], and every batch the loader
    yields is non-empty and made of samples with two 64^3 channels and a known
    perfect transform, then the 200 epochs run without raising; each epoch
    adds one entry to [losses_to_plot] (not a number for an epoch without
    batches, a non-negative mean otherwise), [losses] is empty at the end and
    the model still has the architecture. *)
Theorem training_loop_runs bk tr (loader : nat -> list (list sample)) st w0 b0 net0
    (losses_to_plot : list (option R)) :
  keeps_architecture tr ->
  AffineNet_init w0 b0 = inr net0 -> same_architecture (model_of tr st) net0 ->
  (forall epoch, Forall well_formed_batch (loader epoch)) ->
  exists st' means,
    training_loop bk tr loader st losses_to_plot
    = inr (st', [], losses_to_plot ++ means)
    /\ length means = 200%nat
    /\ Forall2 (epoch_entry loader) (seq 0 200) means
    /\ has_some_architecture (model_of tr st').
Proof.
  intros Hkeeps Hinit Hsame Hload.
  assert (Harch : has_some_architecture (model_of tr st))
    by exact (same_architecture_init w0 b0 net0 _ Hinit Hsame).
  destruct (epochs_loop_ok bk tr loader Hkeeps Hload (seq 0 200) st losses_to_plot Harch)
    as (st' & means & Hrun & Hall & Harch').
  exists st', means. split; [exact Hrun|].
  split; [|split; assumption].
  apply Forall2_length in Hall. now rewrite length_seq in Hall.
Qed.

Lemma example_trainer_keeps : keeps_architecture example_trainer.
Proof.
  intros st batch. cbn. repeat split. generalize (fc_loc st) as ls.
  induction ls as [|l ls IH]; simpl; constructor; [|exact IH].
  repeat split; simpl; [|now rewrite length_map].
  apply Forall2_map_rows.
Qed.

Lemma example_sample_trainable : trainable example_sample.
Proof. split; [reflexivity|]. eexists. apply example_torch_coords. Qed.

Lemma example_drawn_sample_trainable : trainable example_drawn_sample.
Proof.
  split; [reflexivity|]. eexists.
  apply torch_coords_of_monai; [|apply example_monai_drawn].
  apply mmul44_is_mat; [apply inverse44_is_mat|]; apply affine_of_draw_affine.
Qed.

Lemma example_loader_well_formed epoch : Forall well_formed_batch (example_loader epoch).
Proof.
  unfold example_loader. apply Forall_forall. intros b Hb.
  apply list_elem_of_In, repeat_spec in Hb. subst b. split; [discriminate|].
  repeat constructor;
    [apply example_sample_trainable | apply example_drawn_sample_trainable].
Qed.

Lemma training_loop_runs_witness :
  exists st' means,
    training_loop example_backend example_trainer example_loader example_net []
    = inr (st', [], means)
    /\ length means = 200%nat.
Proof.
  destruct (training_loop_runs example_backend example_trainer example_loader
              example_net (fun _ _ => 1) (fun _ => 1) example_net []
              example_trainer_keeps example_net_init)
    as (st' & means & Hrun & Hlen & _).
  - repeat split. constructor; [|constructor]. repeat split.
    clear. generalize (weight (initial_fc (fun _ _ => 1) (fun _ => 1))) as W.
    induction W; constructor; auto.
  - apply example_loader_well_formed.
  - exists st', means. split; assumption.
Defined.

(** ** The loss before training *)

Lemma concat_blocks_eq {A} (v : list A) (ls : list (list A)) :
  Forall (fun l => length l = length v) ls ->
  concat (repeat v (length ls)) = concat ls <-> Forall (fun l => l = v) ls.
Proof.
  induction 1 as [|l ls Hl _ IH]; cbn [length repeat concat].
  - split; [constructor | reflexivity].
  - split.
    + intros H. apply app_inj_1 in H as [-> H]; [|now symmetry].
      constructor; [reflexivity | now apply IH].
    + intros H. apply Forall_cons_iff in H as [-> H]. f_equal. now apply IH.
Qed.

Lemma rows3_identity p :
  is_mat 4 4 p -> concat (firstn 3 p) = concat identity_theta <-> firstn 3 p = identity_theta.
Proof.
  intros Hp. explicit44 p Hp. cbn. split; intros H.
  - injection H as -> -> -> -> -> -> -> -> -> -> -> ->. reflexivity.
  - injection H as -> -> -> -> -> -> -> -> -> -> -> ->. reflexivity.
Qed.

(** X20: on a freshly constructed network the loss of a training step is the
    squared distance between the identity rows and the ground-truth rows of
    the batch; it is zero exactly when the first three rows of every perfect
    transform are those of the identity. *)
Theorem initial_loss bk w0 b0 net (batch : list sample) (ps : list matrix) :
  AffineNet_init w0 b0 = inr net ->
  batch <> [] ->
  Forall (fun d => shape (fm d) = [2; 64; 64; 64]%Z) batch ->
  mapM get_perfect_transform_torch_coords batch = inr ps ->
  exists loss,
    train_step_loss bk net batch = inr loss
    /\ loss = rsum (map (fun q => (fst q - snd q) ^ 2)
                        (combine (concat (repeat (concat identity_theta) (length batch)))
                                 (concat (map (fun p => concat (firstn 3 p)) ps))))
    /\ (loss = 0 <-> Forall (fun p => firstn 3 p = identity_theta) ps).
Proof.
  intros Hinit Hne Hfm Hps.
  pose proof (AffineNet_init_architecture w0 b0 net Hinit) as Harch.
  destruct (train_step_loss_value bk net _ batch ps Harch Hne Hfm Hps) as [xs Hloss].
  assert (Hth : theta_data (initial_fc w0 b0) (Z.of_nat (length batch)) (data xs)
                = concat (repeat (concat identity_theta) (length batch))).
  { unfold theta_data. f_equal. rewrite Nat2Z.id.
    rewrite <- (map_const_seq (concat identity_theta) (length batch) 0).
    apply map_ext. intros r. apply Linear_row_zero_weight.
    - apply zero__all_zero.
    - destruct (initial_fc_sizes w0 b0) as [-> ->]. reflexivity. }
  rewrite Hth in Hloss.
  pose proof (mapM_inr _ _ _ Hps) as Hall2.
  assert (Hlen : length batch = length ps) by (eapply Forall2_length; eauto).
  assert (Hmat : Forall (is_mat 4 4) ps).
  { clear -Hall2. induction Hall2 as [|d p l l' Hd _ IH]; constructor; [|exact IH].
    now apply torch_coords_inr in Hd as [? _]. }
  assert (H12 : Forall (fun l => length l = length (concat identity_theta))
                  (map (fun p => concat (firstn 3 p)) ps)).
  { apply Forall_map. eapply Forall_impl; [exact Hmat|].
    intros p Hp. explicit44 p Hp. reflexivity. }
  eexists. split; [exact Hloss|]. split; [reflexivity|].
  rewrite rsum_sq_zero.
  - rewrite Hlen, <- (length_map (fun p : matrix => concat (firstn 3 p)) ps).
    rewrite (concat_blocks_eq _ _ H12), Forall_map.
    clear -Hmat. induction Hmat as [|p ps Hp _ IH]; [split; constructor|].
    rewrite !Forall_cons_iff, IH. cbn. now rewrite (rows3_identity p Hp).
  - rewrite (length_concat_const 12), (length_concat_const 12).
    + now rewrite repeat_length, length_map, Hlen.
    + exact H12.
    + apply List.Forall_forall. intros l Hl. now apply repeat_spec in Hl as ->.
Qed.

Lemma initial_loss_witness :
  train_step_loss example_backend example_net [same_perturbation_sample] = inr 0.
Proof.
  destruct (initial_loss example_backend (fun _ _ => 1) (fun _ => 1) example_net
              [same_perturbation_sample] [eye 4] example_net_init)
    as (loss & Hloss & _ & Hz).
  - discriminate.
  - repeat constructor.
  - apply Forall2_mapM. repeat constructor.
    apply same_perturbation_example.
  - rewrite Hloss. f_equal. apply Hz. repeat constructor.
Defined.

(** ** One sample through the model, and the perfect warp (cells 13, 16, 24) *)

Lemma example_concat_sample_concatenated : concatenated 64 64 64 example_concat_sample.
Proof.
  unfold concatenated, example_concat_sample, zeros. cbn [fixed moving fm shape data].
  assert (Hlen : length (repeat 0 (Z.to_nat (numel [1; 64; 64; 64]%Z)))
                 = Z.to_nat (numel [64; 64; 64]%Z)).
  { rewrite repeat_length. f_equal. }
  split; [reflexivity|]. split; [reflexivity|].
  split; [exact Hlen|]. split; [exact Hlen|].
  unfold ConcatItemsD_apply, cat0. cbn [shape data].
  destruct (decide ([64; 64; 64]%Z = [64; 64; 64]%Z)) as [_|Hne]; [|contradiction].
  reflexivity.
Qed.

Lemma model_on_sample_shapes_witness :
  exists theta warped,
    model_on_sample example_backend example_trained_net example_concat_sample
    = inr (theta, warped)
    /\ shape theta = [1; 3; 4]%Z
    /\ shape warped = [1; 1; 64; 64; 64]%Z.
Proof.
  destruct (model_on_sample_shapes example_backend (fun _ _ => 1) (fun _ => 1)
              example_net example_trained_net example_concat_sample
              example_net_init example_same_architecture
              example_concat_sample_concatenated)
    as (theta & warped & H1 & H2 & H3 & _).
  exists theta, warped. repeat split; assumption.
Defined.


